(** * captum.optim.param.images: image parameterizations

    A shallow embedding of [captum/optim/param/images.py]: the [logit]
    helper, the colour decorrelation module [ToRGB], the image
    parameterizations [FFTImage], [PixelImage] and [LaplacianImage], and
    the composite [NaturalImage].

    Conventions of the embedding.
    - A tensor is its named-dimension list, its shape and its contiguous
      row-major storage.  Views ([flatten], [unflatten], slicing on the
      first axis) act on the shape and on prefixes or suffixes of the storage.
    - A Python exception is a value [inl e] of the [result] monad.
    - [float32] scalars are idealised as real numbers.  Operations whose
      structure does not depend on the scalar (slicing, concatenation,
      reshaping, matrix products) are written over an arbitrary scalar type.
    - [torch.randn] reads its samples from an explicit source [rng]. *)

From Stdlib Require Import String List Arith Bool Lia ZArith Reals Lra.
Import ListNotations.

Set Implicit Arguments.

(** ** Exceptions *)

Inductive error : Type :=
| AssertionError
| ValueError
| IndexError
| ZeroDivisionError
| TypeError
| KeyError
| AttributeError
| RuntimeError_empty           (* a reduction over no element *)
| RuntimeError_size_mismatch   (* operand sizes do not agree *)
| RuntimeError_names           (* a dimension name is missing or clashes *)
| RuntimeError_rank.           (* an operand has a rank the operator refuses *)

Definition result (A : Type) : Type := (error + A)%type.

Definition ret {A} (a : A) : result A := inr a.
Definition raise {A} (e : error) : result A := inl e.
Definition bind {A B} (m : result A) (k : A -> result B) : result B :=
  match m with
  | inl e => inl e
  | inr a => k a
  end.
Definition assert (b : bool) : result unit :=
  if b then ret tt else raise AssertionError.

Declare Scope result_scope.
Delimit Scope result_scope with result.
Notation "x <- m ;; k" := (bind m (fun x => k))
  (at level 61, m at next level, right associativity) : result_scope.
Notation "m ;;; k" := (bind m (fun _ => k))
  (at level 61, right associativity) : result_scope.
Local Open Scope result_scope.

(** ** Scalars *)

Class Scalar (A : Type) : Type :=
  { szero : A;
    sadd : A -> A -> A;
    smul : A -> A -> A }.

#[export] Instance Scalar_R : Scalar R :=
  {| szero := 0%R; sadd := Rplus; smul := Rmult |}.

#[export] Instance Scalar_Z : Scalar Z :=
  {| szero := 0%Z; sadd := Z.add; smul := Z.mul |}.

(** ** Tensors *)

Record tensor (A : Type) : Type := Tensor
  { names : list (option string);
    shape : list nat;
    data : list A }.

Definition numel (sh : list nat) : nat := fold_right Nat.mul 1 sh.

Definition name_eqb (a b : option string) : bool :=
  match a, b with
  | None, None => true
  | Some s, Some t => String.eqb s t
  | _, _ => false
  end.

Fixpoint names_eqb (a b : list (option string)) : bool :=
  match a, b with
  | [], [] => true
  | x :: a', y :: b' => name_eqb x y && names_eqb a' b'
  | _, _ => false
  end.

Fixpoint shape_eqb (a b : list nat) : bool :=
  match a, b with
  | [] , [] => true
  | x :: a', y :: b' => (x =? y) && shape_eqb a' b'
  | _, _ => false
  end.

Fixpoint index_of (n : string) (ns : list (option string)) : option nat :=
  match ns with
  | [] => None
  | m :: ns' =>
      if name_eqb m (Some n) then Some 0
      else option_map S (index_of n ns')
  end.

(** Two names unify when they are equal or one of them is absent. *)
Definition unify_name (a b : option string) : option (option string) :=
  match a, b with
  | None, _ => Some b
  | _, None => Some a
  | Some s, Some t => if String.eqb s t then Some a else None
  end.

Fixpoint unify_names (a b : list (option string))
  : option (list (option string)) :=
  match a, b with
  | [], [] => Some []
  | x :: a', y :: b' =>
      match unify_name x y, unify_names a' b' with
      | Some n, Some ns => Some (n :: ns)
      | _, _ => None
      end
  | _, _ => None
  end.

Section TensorOps.
Context {A : Type}.

Definition dim (x : tensor A) : nat := length (shape x).

(** Unnamed tensor of a given shape. *)
Definition unnamed (sh : list nat) (d : list A) : tensor A :=
  Tensor (repeat None (length sh)) sh d.

(** [x.size(name)] *)
Definition size_named (x : tensor A) (n : string) : result nat :=
  match index_of n (names x) with
  | None => raise RuntimeError_names
  | Some i =>
      match nth_error (shape x) i with
      | Some s => ret s
      | None => raise RuntimeError_names
      end
  end.

(** [x[lo:hi]] on the first axis; [hi = None] is an open end.  Python
    clamps both ends to the axis length and an inverted range is empty. *)
Definition slice0 (lo : nat) (hi : option nat) (x : tensor A)
  : result (tensor A) :=
  match shape x with
  | [] => raise IndexError
  | d :: rest =>
      let lo' := Nat.min lo d in
      let hi' := match hi with Some h => Nat.min h d | None => d end in
      let n := hi' - lo' in
      ret (Tensor (names x) (n :: rest)
             (firstn (n * numel rest) (skipn (lo' * numel rest) (data x))))
  end.

(** [x.flatten(dims, out)]: the named dimensions must be adjacent and in
    order; contiguous storage is kept as it is. *)
Definition flatten_named (x : tensor A) (dims : list string) (out : string)
  : result (tensor A) :=
  match dims with
  | [] => raise RuntimeError_names
  | d0 :: _ =>
      match index_of d0 (names x) with
      | None => raise RuntimeError_names
      | Some i =>
          let k := length dims in
          if names_eqb (firstn k (skipn i (names x))) (map Some dims) then
            ret (Tensor
                   (firstn i (names x) ++ Some out :: skipn (i + k) (names x))
                   (firstn i (shape x)
                      ++ numel (firstn k (skipn i (shape x)))
                      :: skipn (i + k) (shape x))
                   (data x))
          else raise RuntimeError_names
      end
  end.

(** [x.unflatten(name, sizes)] *)
Definition unflatten (x : tensor A) (n : string)
           (sizes : list (string * nat)) : result (tensor A) :=
  match index_of n (names x) with
  | None => raise RuntimeError_names
  | Some i =>
      match nth_error (shape x) i with
      | None => raise RuntimeError_names
      | Some s =>
          if numel (map snd sizes) =? s then
            ret (Tensor
                   (firstn i (names x)
                      ++ map (fun p => Some (fst p)) sizes
                      ++ skipn (S i) (names x))
                   (firstn i (shape x) ++ map snd sizes
                      ++ skipn (S i) (shape x))
                   (data x))
          else raise RuntimeError_size_mismatch
      end
  end.

Definition refines (old : option string) (new : string) : bool :=
  match old with
  | None => true
  | Some o => String.eqb o new
  end.

Fixpoint refines_all (old : list (option string)) (new : list string)
  : bool :=
  match old, new with
  | _, [] => true
  | o :: old', n :: new' => refines o n && refines_all old' new'
  | [], _ :: _ => false
  end.

(** [x.refine_names(n1, ..., nk, ...)], the trailing ellipsis keeping the
    names of the remaining dimensions. *)
Definition refine_names_ellipsis (x : tensor A) (new : list string)
  : result (tensor A) :=
  if refines_all (names x) new then
    ret (Tensor (map Some new ++ skipn (length new) (names x))
           (shape x) (data x))
  else raise RuntimeError_names.

(** [torch.cat([a, b], 0)] *)
Definition cat0 (a b : tensor A) : result (tensor A) :=
  match shape a, shape b with
  | da :: ra, db :: rb =>
      if shape_eqb ra rb then
        match unify_names (names a) (names b) with
        | Some ns => ret (Tensor ns ((da + db) :: ra) (data a ++ data b))
        | None => raise RuntimeError_names
        end
      else raise RuntimeError_size_mismatch
  | _, _ => raise RuntimeError_rank
  end.

Definition tmap {B : Type} (f : A -> B) (x : tensor A) : tensor B :=
  Tensor (names x) (shape x) (map f (data x)).

(** [x.refine_names(n1, ..., nk)]: one name for every dimension. *)
Definition refine_names (x : tensor A) (new : list string)
  : result (tensor A) :=
  if (length new =? dim x) && refines_all (names x) new then
    ret (Tensor (map Some new) (shape x) (data x))
  else raise RuntimeError_names.

(** [x[:, :h, :w]]: the second and third axes are cut to at most [h] and
    [w] entries; axes after the third are kept whole. *)
Definition crop12 (h w : nat) (x : tensor A) : result (tensor A) :=
  match shape x with
  | d0 :: d1 :: d2 :: rest =>
      let h' := Nat.min h d1 in
      let w' := Nat.min w d2 in
      let r := numel rest in
      ret (Tensor (names x) (d0 :: h' :: w' :: rest)
             (flat_map
                (fun i0 =>
                   flat_map
                     (fun i1 =>
                        flat_map
                          (fun i2 =>
                             firstn r
                               (skipn (((i0 * d1 + i1) * d2 + i2) * r)
                                  (data x)))
                          (seq 0 w'))
                     (seq 0 h'))
                (seq 0 d0)))
  | _ => raise IndexError
  end.

(** *** Broadcasting *)

(** Shapes are matched from their last axis: two sizes agree when they
    are equal or one of them is 1. *)
Fixpoint broadcast_rev (a b : list nat) : result (list nat) :=
  match a, b with
  | [], _ => ret b
  | _, [] => ret a
  | x :: a', y :: b' =>
      rest <- broadcast_rev a' b' ;;
      if x =? y then ret (x :: rest)
      else if x =? 1 then ret (y :: rest)
      else if y =? 1 then ret (x :: rest)
      else raise RuntimeError_size_mismatch
  end.

Definition broadcast_shapes (a b : list nat) : result (list nat) :=
  r <- broadcast_rev (rev a) (rev b) ;; ret (rev r).

(** The multi-index of storage position [i] in a tensor of shape [sh]. *)
Fixpoint unravel (sh : list nat) (i : nat) : list nat :=
  match sh with
  | [] => []
  | d :: rest => (i / numel rest) mod d :: unravel rest i
  end.

(** The storage position of a multi-index, an axis of size 1 being read
    at 0 whatever the index. *)
Fixpoint ravel (sh idx : list nat) : nat :=
  match sh, idx with
  | d :: sh', k :: idx' =>
      (if d =? 1 then 0 else k) * numel sh' + ravel sh' idx'
  | _, _ => 0
  end.

Definition bindex (out src : list nat) (i : nat) : nat :=
  ravel src (skipn (length out - length src) (unravel out i)).

Definition pad_names (n : nat) (ns : list (option string))
  : list (option string) :=
  repeat None (n - length ns) ++ ns.

Context `{Scalar A}.

Definition get (d : list A) (i : nat) : A := nth i d szero.

(** Elementwise binary operator with broadcasting. *)
Definition binop (f : A -> A -> A) (a b : tensor A) : result (tensor A) :=
  sh <- broadcast_shapes (shape a) (shape b) ;;
  match unify_names (pad_names (length sh) (names a))
          (pad_names (length sh) (names b)) with
  | None => raise RuntimeError_names
  | Some ns =>
      ret (Tensor ns sh
             (map (fun i => f (get (data a) (bindex sh (shape a) i))
                              (get (data b) (bindex sh (shape b) i)))
                (seq 0 (numel sh))))
  end.

Definition sum_upto (k : nat) (f : nat -> A) : A :=
  fold_left (fun acc l => sadd acc (f l)) (seq 0 k) szero.

(** Row-major storage of the product of an [n x k] by a [k x m] matrix. *)
Definition matmul_data (n k m : nat) (a b : list A) : list A :=
  flat_map
    (fun i =>
       map (fun j => sum_upto k (fun l => smul (get a (i * k + l))
                                            (get b (l * m + j))))
         (seq 0 m))
    (seq 0 n).

(** [a @ b] for matrices.  The names of the contracted axis are dropped. *)
Definition matmul (a b : tensor A) : result (tensor A) :=
  match shape a, shape b with
  | [n; k], [k'; m] =>
      if k =? k' then
        ret (Tensor [nth 0 (names a) None; nth 1 (names b) None] [n; m]
               (matmul_data n k m (data a) (data b)))
      else raise RuntimeError_size_mismatch
  | _, _ => raise RuntimeError_rank
  end.

(** [a.t()] *)
Definition transpose (a : tensor A) : result (tensor A) :=
  match shape a with
  | [n; m] =>
      ret (Tensor (rev (names a)) [m; n]
             (flat_map (fun j => map (fun i => get (data a) (i * m + j))
                                   (seq 0 n))
                (seq 0 m)))
  | _ => raise RuntimeError_rank
  end.

End TensorOps.

(** ** torch.nn.Module attribute storage

    [torch.nn.Module] keeps parameters and buffers in two dictionaries and
    routes every attribute assignment through [__setattr__]: a
    [Parameter] value is registered as a parameter whatever the name held
    before; a value that is not a [Parameter] is refused with [TypeError]
    when the name is a registered parameter, replaces the entry when the
    name is a registered buffer, and is an ordinary attribute otherwise. *)

Module NN.
Section Store.
Context {A : Type}.

Definition dict : Type := list (string * tensor A).

Fixpoint lookup (k : string) (d : dict) : option (tensor A) :=
  match d with
  | [] => None
  | (k', v) :: d' => if String.eqb k k' then Some v else lookup k d'
  end.

Fixpoint remove (k : string) (d : dict) : dict :=
  match d with
  | [] => []
  | (k', v) :: d' =>
      if String.eqb k k' then remove k d' else (k', v) :: remove k d'
  end.

Definition insert (k : string) (v : tensor A) (d : dict) : dict :=
  (k, v) :: remove k d.

Definition mem (k : string) (d : dict) : bool :=
  match lookup k d with Some _ => true | None => false end.

Record module : Type := Module_
  { attrs : dict;          (* tensors held in the instance __dict__ *)
    _parameters : dict;
    _buffers : dict }.

Definition empty : module := Module_ [] [] [].

(** The right-hand side of an assignment: [nn.Parameter(t)] or a tensor
    that is not a parameter. *)
Inductive value : Type :=
| Param (t : tensor A)
| Plain (t : tensor A).

Definition hasattr (m : module) (name : string) : bool :=
  mem name (attrs m) || mem name (_parameters m) || mem name (_buffers m).

(** [self.register_buffer(name, t)] *)
Definition register_buffer (m : module) (name : string) (t : tensor A)
  : result module :=
  if hasattr m name && negb (mem name (_buffers m)) then raise KeyError
  else ret (Module_ (attrs m) (_parameters m) (insert name t (_buffers m))).

(** [self.name = v] *)
Definition setattr (m : module) (name : string) (v : value)
  : result module :=
  match v with
  | Param t =>
      ret (Module_ (remove name (attrs m))
             (insert name t (_parameters m))
             (remove name (_buffers m)))
  | Plain t =>
      if mem name (_parameters m) then raise TypeError
      else if mem name (_buffers m) then
        ret (Module_ (attrs m) (_parameters m) (insert name t (_buffers m)))
      else
        ret (Module_ (insert name t (attrs m)) (_parameters m) (_buffers m))
  end.

(** [self.name] *)
Definition getattr (m : module) (name : string) : result (tensor A) :=
  match lookup name (attrs m) with
  | Some t => ret t
  | None =>
      match lookup name (_parameters m) with
      | Some t => ret t
      | None =>
          match lookup name (_buffers m) with
          | Some t => ret t
          | None => raise AttributeError
          end
      end
  end.

End Store.
Arguments dict : clear implicits.
Arguments module : clear implicits.
Arguments value : clear implicits.
End NN.

(** ** ToRGB *)

Module ToRGB.

Section Forward.
Context {A : Type} `{Scalar A}.

(** The module once [__init__] has registered its [transform] buffer. *)
Definition with_transform (m : tensor A) : result (NN.module A) :=
  NN.register_buffer NN.empty "transform" m.

(** [ToRGB.forward(self, x, inverse=False)] *)
Definition forward (self : NN.module A) (x : tensor A) (inverse : bool)
  : result (tensor A) :=
  assert (dim x =? 3) ;;;
  c <- size_named x "C" ;;
  let has_alpha := c =? 4 in
  xa <- (if has_alpha then
           x' <- slice0 0 (Some 3) x ;;
           alpha_channel <- slice0 3 None x ;;
           assert (dim x' =? dim alpha_channel) ;;;
           ret (x', Some alpha_channel)
         else ret (x, None)) ;;
  let x := fst xa in
  h <- size_named x "H" ;;
  w <- size_named x "W" ;;
  flat <- flatten_named x ["H"; "W"]%string "spatials" ;;
  correct <- (if inverse then
                tr <- NN.getattr self "transform" ;;
                trt <- transpose tr ;;
                matmul trt flat
              else
                tr <- NN.getattr self "transform" ;;
                matmul tr flat) ;;
  un <- unflatten correct "spatials" [("H", h); ("W", w)]%string ;;
  chw <- refine_names_ellipsis un ["C"%string] ;;
  match snd xa with
  | Some alpha_channel => cat0 chw alpha_channel
  | None => ret chw
  end.

End Forward.

Local Open Scope R_scope.

(** [np.asarray(rows)] for a list of rows. *)
Definition asarray (rows : list (list R)) : tensor R :=
  unnamed [length rows; length (hd [] rows)] (concat rows).

(** [np.linalg.norm(a, axis=0)]: the Euclidean norm of every column. *)
Definition norm_axis0 (a : tensor R) : list R :=
  match shape a with
  | [n; m] =>
      map (fun j => sqrt (sum_upto n (fun i => get (data a) (i * m + j)
                                            * get (data a) (i * m + j))))
        (seq 0 m)
  | _ => []
  end.

(** [np.max] of a non-empty vector. *)
Definition np_max (v : list R) : R :=
  match v with
  | [] => 0
  | a :: v' => fold_left Rmax v' a
  end.

(** [ToRGB.klt_transform()] *)
Definition KLT : list (list R) :=
  [[26/100; 9/100; 2/100]; [27/100; 0; -5/100]; [27/100; -9/100; 3/100]].

Definition klt_transform : tensor R :=
  let transform := asarray KLT in
  tmap (fun v => v / np_max (norm_axis0 transform)) transform.

(** [ToRGB.i1i2i3_transform()] *)
Definition i1i2i3_matrix : list (list R) :=
  [[1/3; 1/3; 1/3]; [1/2; 0; -1/2]; [-1/4; 1/2; -1/4]].

Definition i1i2i3_transform : tensor R := asarray i1i2i3_matrix.

(** [ToRGB.__init__(self, transform_name="klt")] *)
Definition init (transform_name : string) : result (NN.module R) :=
  if String.eqb transform_name "klt" then with_transform klt_transform
  else if String.eqb transform_name "i1i2i3" then
    with_transform i1i2i3_transform
  else raise ValueError.

End ToRGB.

(** ** logit

    The result of [torch.log] and of a division is a real number or one of
    the special values of the floating-point format. *)

Inductive xreal : Type :=
| Fin (r : R)
| PInf
| NInf
| NaN.

Section Logit.
Local Open Scope R_scope.

(** [a / b] for finite operands. *)
Definition xdiv (a b : R) : xreal :=
  if Req_dec_T b 0 then
    if Req_dec_T a 0 then NaN
    else if Rlt_dec 0 a then PInf else NInf
  else Fin (a / b).

(** [torch.log] *)
Definition xlog (v : xreal) : xreal :=
  match v with
  | Fin r =>
      if Rlt_dec 0 r then Fin (ln r)
      else if Req_dec_T r 0 then NInf else NaN
  | PInf => PInf
  | NInf => NaN
  | NaN => NaN
  end.

(** [torch.clamp(v, min=lo, max=hi)] on one element. *)
Definition clamp (lo hi v : R) : R := Rmin (Rmax v lo) hi.

(** [p.min()] and [p.max()], which refuse an empty tensor. *)
Definition tensor_min (p : tensor R) : result R :=
  match data p with
  | [] => raise RuntimeError_empty
  | a :: d => ret (fold_left Rmin d a)
  end.

Definition tensor_max (p : tensor R) : result R :=
  match data p with
  | [] => raise RuntimeError_empty
  | a :: d => ret (fold_left Rmax d a)
  end.

(** [logit(p, epsilon=1e-6)].  Over the reals [1 - epsilon < 1] for every
    positive [epsilon]; the program computes in [float32], where this holds
    of the epsilons at least [float32_resolution] (2^-24), the 1e-6 and
    1e-4 of the code among them. *)
Definition logit (p : tensor R) (epsilon : R) : result (tensor xreal) :=
  let p := tmap (clamp epsilon (1 - epsilon)) p in
  mn <- tensor_min p ;;
  ok <- (if Rle_dec 0 mn then
           mx <- tensor_max p ;;
           ret (if Rlt_dec mx 1 then true else false)
         else ret false) ;;
  assert ok ;;;
  ret (tmap (fun v => xlog (xdiv v (1 - v))) p).

Definition default_epsilon : R := 1 / 1000000.

(** A zero-dimensional tensor holding one value, as [torch.tensor(v)]. *)
Definition scalar_tensor {A} (v : A) : tensor A := Tensor [] [] [v].

End Logit.

(** ** numpy and torch routines used by the frequency parameterization *)

Section Spectral.
Local Open Scope R_scope.

(** [np.fft.fftfreq(n)]: [0, 1, ..., (n-1)//2, -(n//2), ..., -1] / n. *)
Definition fftfreq (n : nat) : result (list R) :=
  if (n =? 0)%nat then raise ZeroDivisionError
  else
    let N := ((n - 1) / 2 + 1)%nat in
    ret (map (fun i => (if (i <? N)%nat then INR i else - INR (n - i))
                       * (1 / INR n))
           (seq 0 n)).

(** [torch.randn(shape)], the samples being read from [rng]. *)
Definition randn (rng : nat -> R) (sh : list nat) : tensor R :=
  unnamed sh (map rng (seq 0 (numel sh))).

Definition is_unnamed {A} (x : tensor A) : bool :=
  forallb (fun n => name_eqb n None) (names x).

Definition angle (u y h v x w : nat) : R :=
  2 * PI * (INR u * INR y / INR h + INR v * INR x / INR w).

(** [torch.rfft(x, signal_ndim=2)]: the one-sided, unnormalised discrete
    Fourier transform of the last two axes.  The result has one more axis,
    of size 2, for the real and imaginary parts.  The FFT operators do not
    take named tensors. *)
Definition rfft_shape (sh : list nat) : result (list nat) :=
  match rev sh with
  | w :: h :: batch => ret (rev batch ++ [h; (w / 2 + 1)%nat; 2%nat])
  | _ => raise RuntimeError_rank
  end.

Definition rfft (x : tensor R) : result (tensor R) :=
  if negb (is_unnamed x) then raise RuntimeError_names
  else
    sh <- rfft_shape (shape x) ;;
    match rev (shape x) with
    | w :: h :: batch =>
        ret (unnamed sh
               (flat_map
                  (fun b =>
                     flat_map
                       (fun u =>
                          flat_map
                            (fun v =>
                               [ sum_upto h (fun y => sum_upto w (fun j =>
                                   get (data x) ((b * h + y) * w + j)
                                   * cos (angle u y h v j w)));
                                 sum_upto h (fun y => sum_upto w (fun j =>
                                   - (get (data x) ((b * h + y) * w + j)
                                      * sin (angle u y h v j w)))) ])
                            (seq 0 (w / 2 + 1)))
                       (seq 0 h))
                  (seq 0 (numel batch))))
    | _ => raise RuntimeError_rank
    end.

(** [torch.irfft(x, signal_ndim=2)]: the inverse of [rfft], normalised by
    the number of samples.  Without [signal_sizes] the last signal axis is
    taken to have the even length [2 * (wf - 1)], [wf] being the number of
    columns of the one-sided spectrum; the missing columns are the
    conjugates of the stored ones.  A spectrum of one column would give a
    signal of length 0, which is refused. *)
Definition spectrum_at (d : list R) (b h wf u v : nat) : R * R :=
  let wo := (2 * (wf - 1))%nat in
  if (v <? wf)%nat then
    (get d ((((b * h + u) * wf + v) * 2)%nat),
     get d ((((b * h + u) * wf + v) * 2 + 1)%nat))
  else
    let u' := ((h - u) mod h)%nat in
    let v' := (wo - v)%nat in
    (get d ((((b * h + u') * wf + v') * 2)%nat),
     - get d ((((b * h + u') * wf + v') * 2 + 1)%nat)).

Definition irfft (x : tensor R) : result (tensor R) :=
  if negb (is_unnamed x) then raise RuntimeError_names
  else
    match rev (shape x) with
    | two :: wf :: h :: batch =>
        if (two =? 2)%nat then
          let wo := (2 * (wf - 1))%nat in
          if (wo =? 0)%nat then raise RuntimeError_size_mismatch
          else
          ret (unnamed (rev batch ++ [h; wo])
                 (flat_map
                    (fun b =>
                       flat_map
                         (fun y =>
                            map
                              (fun j =>
                                 sum_upto h (fun u => sum_upto wo (fun v =>
                                   let c := spectrum_at (data x) b h wf u v in
                                   fst c * cos (angle u y h v j wo)
                                   - snd c * sin (angle u y h v j wo)))
                                 / INR (h * wo))
                              (seq 0 wo))
                         (seq 0 h))
                    (seq 0 (numel batch))))
        else raise RuntimeError_size_mismatch
    | _ => raise RuntimeError_rank
    end.

(** [a[None, :, :, None]] *)
Definition expand_none_first_last {A} (a : tensor A) : tensor A :=
  Tensor (None :: names a ++ [None]) (1%nat :: shape a ++ [1%nat]) (data a).

End Spectral.

(** ** FFTImage *)

Module FFTImage.
Local Open Scope R_scope.

Record t : Type := Make
  { size : list nat;
    nn : NN.module R }.

(** [FFTImage.rfft2d_freqs(height, width)] *)
Definition rfft2d_freqs (height width : nat) : result (tensor R) :=
  fy <- fftfreq height ;;
  let f_y := unnamed [length fy; 1%nat] fy in
  let add := if (width mod 2 =? 1)%nat then 2%nat else 1%nat in
  fx <- fftfreq width ;;
  let fx := firstn (width / 2 + add) fx in
  let f_x := unnamed [length fx] fx in
  xx <- binop Rmult f_x f_x ;;
  yy <- binop Rmult f_y f_y ;;
  s <- binop Rplus xx yy ;;
  ret (tmap sqrt s).

(** The scale computed by [__init__] from the frequency grid:
    [1.0 / np.maximum(frequencies, 1.0 / m)] with [m] the larger of the
    two sizes, multiplied by
    [np.sqrt(size[0] * size[1])] and given a leading and a trailing axis
    of size 1. *)
Definition scale_grid (h w : nat) (frequencies : tensor R) : tensor R :=
  let floor := 1 / INR (Nat.max h w) in
  let scale := tmap (fun f => 1 / Rmax f floor) frequencies in
  let scale := tmap (fun v => v * sqrt (INR (h * w))) scale in
  expand_none_first_last scale.

(** The coefficients [__init__] starts from: [torch.randn(shape) / 50]. *)
Definition initial_coeffs (channels h w : nat) (rng : nat -> R) : tensor R :=
  let coeffs_shape := [channels; h; (w / 2 + 1)%nat; 2%nat] in
  let random_coeffs := randn rng coeffs_shape in
  tmap (fun v => v / 50) random_coeffs.

(** [FFTImage.__init__(self, size, channels=3)] *)
Definition init (size : list nat) (channels : nat) (rng : nat -> R)
  : result t :=
  assert (length size =? 2)%nat ;;;
  let h := nth 0 size 0%nat in
  let w := nth 1 size 0%nat in
  m <- NN.setattr NN.empty "fourier_coeffs"
         (NN.Param (initial_coeffs channels h w rng)) ;;
  frequencies <- rfft2d_freqs h w ;;
  let spectrum_scale := scale_grid h w frequencies in
  m <- NN.register_buffer m "spectrum_scale" spectrum_scale ;;
  ret (Make size m).

(** [FFTImage.set_image(self, correlated_image)].  The quotient is assigned
    to [self.fourier_coeffs] as the division returns it: a tensor, not an
    [nn.Parameter]. *)
Definition set_image (self : t) (correlated_image : tensor R) : result t :=
  coeffs <- rfft correlated_image ;;
  spectrum_scale <- NN.getattr (nn self) "spectrum_scale" ;;
  q <- binop Rdiv coeffs spectrum_scale ;;
  m <- NN.setattr (nn self) "fourier_coeffs" (NN.Plain q) ;;
  ret (Make (size self) m).

(** [FFTImage.forward(self)] *)
Definition forward (self : t) : result (tensor R) :=
  hw <- match size self with
        | [h; w] => ret (h, w)
        | _ => raise ValueError
        end ;;
  fourier_coeffs <- NN.getattr (nn self) "fourier_coeffs" ;;
  spectrum_scale <- NN.getattr (nn self) "spectrum_scale" ;;
  scaled_spectrum <- binop Rmult fourier_coeffs spectrum_scale ;;
  out <- irfft scaled_spectrum ;;
  output <- crop12 (fst hw) (snd hw) out ;;
  refine_names output ["C"; "H"; "W"]%string.

End FFTImage.

(** ** PixelImage *)

Module PixelImage.
Local Open Scope R_scope.

Record t : Type := Make { nn : NN.module R }.

(** [size[i]] *)
Definition item (size : list nat) (i : nat) : result nat :=
  match nth_error size i with
  | Some v => ret v
  | None => raise IndexError
  end.

(** [PixelImage.__init__(self, size=None, channels=3, init=None)].  The
    assertion [size is not None and channels is not None] is the last case
    of the inner match. *)
Definition init (size : option (list nat)) (channels : option nat)
           (init : option (tensor R)) (rng : nat -> R) : result t :=
  init <- match init with
          | None =>
              match size, channels with
              | Some size, Some channels =>
                  h <- item size 0 ;;
                  w <- item size 1 ;;
                  ret (tmap (fun v => v / 10 + 5 / 10)
                         (randn rng [channels; h; w]))
              | _, _ => raise AssertionError
              end
          | Some init =>
              c <- item (shape init) 0 ;;
              assert (c =? 3)%nat ;;;
              ret init
          end ;;
  m <- NN.setattr NN.empty "image" (NN.Param init) ;;
  ret (Make m).

(** [PixelImage.forward(self)] *)
Definition forward (self : t) : result (tensor R) :=
  NN.getattr (nn self) "image".

(** [PixelImage.set_image(self, correlated_image)] *)
Definition set_image (self : t) (correlated_image : tensor R) : result t :=
  m <- NN.setattr (nn self) "image" (NN.Param correlated_image) ;;
  ret (Make m).

End PixelImage.

(** ** LaplacianImage *)

Module LaplacianImage.
Local Open Scope R_scope.

(** [torch.nn.Upsample(scale_factor=s, mode="nearest")] *)
Record upsample : Type := Upsample { scale_factor : nat }.

(** The two kinds of value the class stores: a list of tensors and a list
    of upsampling modules.  Both are lists, so [__setattr__] keeps them as
    ordinary attributes. *)
Inductive attribute : Type :=
| Tensors (l : list (tensor R))
| Scalers (l : list upsample).

Record t : Type := Make { attrs : list (string * attribute) }.

Fixpoint lookup (name : string) (d : list (string * attribute))
  : option attribute :=
  match d with
  | [] => None
  | (k, v) :: d' => if String.eqb name k then Some v else lookup name d'
  end.

(** [self.name]: the module holds no parameter, buffer or submodule, so a
    name that is not an attribute is an [AttributeError]. *)
Definition getattr (self : t) (name : string) : result attribute :=
  match lookup name (attrs self) with
  | Some v => ret v
  | None => raise AttributeError
  end.

Definition power : R := 1 / 10.

Definition scales : list nat := [1; 2; 4; 8; 16; 32]%nat.

(** The body of the loop of [__init__], from the scale [scales] on.  [off]
    counts the samples already drawn; [device] is what initialising the
    CUDA device gives in the environment, which [x.cuda()] needs. *)
Fixpoint build (device : result unit) (rng : nat -> R) (off : nat)
         (scales : list nat) : result (list (tensor R) * list upsample) :=
  match scales with
  | [] => ret ([], [])
  | scale :: rest =>
      let up := Upsample scale in
      let sh := [1; 3; 224 / scale; 224 / scale]%nat in
      let x := tmap (fun v => v / 10) (randn (fun i => rng (off + i)%nat) sh) in
      device ;;;
      let x := tmap (fun v => v * Rpower (INR scale) power / Rpower 32 power)
                 x in
      r <- build device rng (off + numel sh) rest ;;
      ret (x :: fst r, up :: snd r)
  end.

(** [LaplacianImage.__init__(self)] *)
Definition init (device : result unit) (rng : nat -> R) : result t :=
  r <- build device rng 0 scales ;;
  ret (Make [("parameters"%string, Tensors (fst r));
             ("scaler"%string, Scalers (snd r))]).

(** [upsample(x)] for a tensor of four dimensions, the only kind [__init__]
    creates: every entry is repeated [scale_factor] times along the last two
    axes. *)
Definition apply_upsample (u : upsample) (x : tensor R) : result (tensor R) :=
  match shape x with
  | [n; c; h; w] =>
      let s := scale_factor u in
      ret (Tensor (names x) [n; c; h * s; w * s]%nat
             (flat_map
                (fun b =>
                   flat_map
                     (fun y =>
                        map (fun j => get (data x)
                                        ((b * h + y / s) * w + j / s)%nat)
                          (seq 0 (w * s)))
                     (seq 0 (h * s)))
                (seq 0 (n * c))))
  | _ => raise RuntimeError_rank
  end.

(** [torch.cat(A)] for a list, along the first axis. *)
Fixpoint cat_list (l : list (tensor R)) : result (tensor R) :=
  match l with
  | [] => raise RuntimeError_empty
  | [a] => match shape a with
           | [] => raise RuntimeError_rank
           | _ => ret a
           end
  | a :: l' => r <- cat_list l' ;; cat0 a r
  end.

(** [torch.sum(x, 0)] *)
Definition sum0 (x : tensor R) : tensor R :=
  match shape x with
  | [] => x
  | d :: rest =>
      Tensor (tl (names x)) rest
        (map (fun j => sum_upto d (fun i => get (data x)
                                              (i * numel rest + j)%nat))
           (seq 0 (numel rest)))
  end.

Fixpoint upsample_all (l : list (tensor R * upsample))
  : result (list (tensor R)) :=
  match l with
  | [] => ret []
  | (xi, upsamplei) :: l' =>
      a <- apply_upsample upsamplei xi ;;
      r <- upsample_all l' ;;
      ret (a :: r)
  end.

(** [LaplacianImage.forward(self)] *)
Definition forward (self : t) : result (tensor R) :=
  X <- getattr self "X" ;;
  scaler <- getattr self "scaler" ;;
  match X, scaler with
  | Tensors X, Scalers scaler =>
      A <- upsample_all (combine X scaler) ;;
      c <- cat_list A ;;
      ret (tmap (fun v => v + 5 / 10) (sum0 c))
  | _, _ => raise TypeError
  end.

End LaplacianImage.

(** ** NaturalImage *)

(** [torch.sigmoid_] on one element. *)
Definition sigmoid (v : R) : R := (1 / (1 + exp (- v)))%R.

(** [x.rename(None)] *)
Definition rename_none {A} (x : tensor A) : tensor A :=
  Tensor (map (fun _ => None) (names x)) (shape x) (data x).

(** The real number a finite value is.  The values [set_image] reads this
    way come from [logit] with the epsilon 1e-4 and are all finite. *)
Definition to_real (v : xreal) : R :=
  match v with
  | Fin r => r
  | _ => 0%R
  end.

Module NaturalImage.
Local Open Scope R_scope.

(** The class given as [Parameterization]. *)
Inductive parameterization_class : Type :=
| FFTImage_class
| PixelImage_class
| LaplacianImage_class.

Inductive parameterization : Type :=
| AsFFT (p : FFTImage.t)
| AsPixel (p : PixelImage.t).

Record t : Type := Make
  { param : parameterization;
    decorrelate : NN.module R }.

(** [NaturalImage.__init__(self, size, channels=3,
    Parameterization=FFTImage)].  [LaplacianImage.__init__] takes neither a
    size nor a channel count. *)
Definition init (size : list nat) (channels : nat)
           (Parameterization : parameterization_class) (rng : nat -> R)
  : result t :=
  p <- match Parameterization with
       | FFTImage_class =>
           p <- FFTImage.init size channels rng ;; ret (AsFFT p)
       | PixelImage_class =>
           p <- PixelImage.init (Some size) (Some channels) None rng ;;
           ret (AsPixel p)
       | LaplacianImage_class => raise TypeError
       end ;;
  d <- ToRGB.init "klt" ;;
  ret (Make p d).

(** [NaturalImage.forward(self)] *)
Definition forward (self : t) : result (tensor R) :=
  image <- match param self with
           | AsFFT p => FFTImage.forward p
           | AsPixel p => PixelImage.forward p
           end ;;
  image <- ToRGB.forward (decorrelate self) image false ;;
  let image := rename_none image in
  ret (tmap sigmoid image).

Definition set_image_epsilon : R := 1 / 10000.

(** [NaturalImage.set_image(self, image)] *)
Definition set_image (self : t) (image : tensor R) : result t :=
  logits <- logit image set_image_epsilon ;;
  correlated <- ToRGB.forward (decorrelate self) (tmap to_real logits) true ;;
  p <- match param self with
       | AsFFT p => p' <- FFTImage.set_image p correlated ;; ret (AsFFT p')
       | AsPixel p => p' <- PixelImage.set_image p correlated ;; ret (AsPixel p')
       end ;;
  ret (Make p (decorrelate self)).

End NaturalImage.

(** ** Vocabulary of the statements *)

(** The names of an image tensor: channel, height, width. *)
Definition CHW : list (option string) :=
  [Some "C"; Some "H"; Some "W"]%string.

(** The storage of a 3 x 3 basis as [forward] uses it: transposed when
    [inverse] is set. *)
Definition oriented {A} `{Scalar A} (T : tensor A) (inverse : bool) : list A :=
  if inverse then
    flat_map (fun j => map (fun i => get (data T) (i * 3 + j)) (seq 0 3))
      (seq 0 3)
  else data T.

(** A module whose [transform] buffer is an unnamed 3 x 3 matrix, as
    [ToRGB.__init__] leaves it. *)
Definition rgb_basis {A} (self : NN.module A) (T : tensor A) : Prop :=
  NN.getattr self "transform" = inr T
  /\ shape T = [3; 3]
  /\ names T = [None; None].

(** The image of one pixel with the given three channel values. *)
Definition pixel {A} (c0 c1 c2 : A) : tensor A :=
  Tensor CHW [3; 1; 1] [c0; c1; c2].

(** The scalar product of columns [i] and [l] of a 3 x 3 matrix, and the
    matrices whose columns are orthonormal: those whose transpose is their
    inverse. *)
Definition gram (T : tensor R) (i l : nat) : R :=
  sum_upto 3 (fun k => (get (data T) (k * 3 + i)
                        * get (data T) (k * 3 + l))%R).

Definition orthonormal_columns (T : tensor R) : Prop :=
  forall i l, i < 3 -> l < 3 -> gram T i l = if i =? l then 1%R else 0%R.

(** A basis that only permutes the channels. *)
Definition rotation : tensor R :=
  unnamed [3; 3] [0; 1; 0; 0; 0; 1; 1; 0; 0]%R.

(** The number of channels the matrix product sees: an input of four
    channels has lost its alpha channel by then. *)
Definition colour_channels (c : nat) : nat := if c =? 4 then 3 else c.

(** The number of columns of the frequency grid of a signal of width [w]. *)
Definition grid_columns (w : nat) : nat :=
  if (w mod 2 =? 0) || (w =? 1) then w / 2 + 1 else w / 2 + 2.

(** A tensor whose storage holds one element for every index. *)
Definition well_formed {A} (x : tensor A) : Prop :=
  length (names x) = length (shape x)
  /\ length (data x) = numel (shape x).

(** Entry [i] of [np.fft.fftfreq(n)]. *)
Definition sample_frequency (n i : nat) : R :=
  ((if i <? (n - 1) / 2 + 1 then INR i else - INR (n - i)) * (1 / INR n))%R.

(** The storage of the basis read as a matrix: entry [(i, k)] of the matrix
    [forward] multiplies by. *)
Definition basis_entry {A} `{Scalar A} (T : tensor A) (inverse : bool)
           (i k : nat) : A :=
  if inverse then get (data T) (k * 3 + i) else get (data T) (i * 3 + k).

(** The gap between 1 and the [float32] number just below it, 2^-24.  For
    an [epsilon] at least this large the clamp bound [1.0 - epsilon] is
    below 1 once it is rounded to [float32], as it is over the reals; for
    a smaller one (1e-8, say) it can round to 1.0, and [logit] then fails
    its assertion on an input of 1.0. *)
Definition float32_resolution : R := (1 / 16777216)%R.

(** * Properties *)

(** ** Tensors *)

Lemma shape_eqb_refl (s : list nat) : shape_eqb s s = true.
Proof.
  induction s as [|a s IH]; simpl; [reflexivity|].
  now rewrite Nat.eqb_refl.
Qed.

Lemma length_flat_map_const {X Y} (f : X -> list Y) (m : nat) (l : list X) :
  (forall i, length (f i) = m) -> length (flat_map f l) = length l * m.
Proof.
  intros Hf. induction l as [|a l IH]; simpl; [reflexivity|].
  now rewrite length_app, Hf, IH.
Qed.

Lemma length_matmul_data {A} `{Scalar A} (n k m : nat) (a b : list A) :
  length (matmul_data n k m a b) = n * m.
Proof.
  unfold matmul_data.
  rewrite length_flat_map_const with (m := m).
  - now rewrite length_seq.
  - intros i. now rewrite length_map, length_seq.
Qed.

Lemma nth_flat_map_const {X Y} (f : X -> list Y) (m : nat) (l : list X)
      (i j : nat) (dx : X) (dy : Y) :
  (forall a, length (f a) = m) -> i < length l -> j < m ->
  nth (i * m + j) (flat_map f l) dy = nth j (f (nth i l dx)) dy.
Proof.
  intros Hf. revert i. induction l as [|a l IH]; intros i Hi Hj; simpl in *.
  - lia.
  - destruct i as [|i].
    + simpl. rewrite app_nth1 by (rewrite Hf; exact Hj). reflexivity.
    + rewrite app_nth2 by (rewrite Hf; simpl; lia).
      rewrite Hf. replace (S i * m + j - m) with (i * m + j) by (simpl; lia).
      apply IH; [lia|exact Hj].
Qed.

(** Entry [(i, j)] of a matrix product is the sum over the contracted
    index. *)
Lemma get_matmul_data {A} `{Scalar A} (n k m : nat) (a b : list A)
      (i j : nat) :
  i < n -> j < m ->
  get (matmul_data n k m a b) (i * m + j)
  = sum_upto k (fun l => smul (get a (i * k + l)) (get b (l * m + j))).
Proof.
  intros Hi Hj. unfold get at 1, matmul_data.
  rewrite nth_flat_map_const with (m := m) (dx := 0).
  - rewrite seq_nth by exact Hi. simpl.
    rewrite nth_indep
      with (d' := sum_upto k (fun l => smul (get a (i * k + l))
                                         (get b (l * m + 0)))).
    2:{ now rewrite length_map, length_seq. }
    rewrite map_nth
      with (f := fun j => sum_upto k (fun l => smul (get a (i * k + l))
                                               (get b (l * m + j))))
           (d := 0).
    rewrite seq_nth by exact Hj. reflexivity.
  - intros c. now rewrite length_map, length_seq.
  - now rewrite length_seq.
  - exact Hj.
Qed.

Lemma firstn_app_exact {X} (n : nat) (l1 l2 : list X) :
  length l1 = n -> firstn n (l1 ++ l2) = l1.
Proof.
  intros <-. rewrite firstn_app, Nat.sub_diag, firstn_all. simpl.
  apply app_nil_r.
Qed.

Lemma skipn_app_exact {X} (n : nat) (l1 l2 : list X) :
  length l1 = n -> skipn n (l1 ++ l2) = l2.
Proof.
  intros <-. rewrite skipn_app, Nat.sub_diag, skipn_all. reflexivity.
Qed.

Lemma firstn_idem {X} (n : nat) (l : list X) :
  firstn n (firstn n l) = firstn n l.
Proof. rewrite firstn_firstn. now rewrite Nat.min_id. Qed.

(** ** ToRGB.forward *)

Section ToRGBForward.
Context {A : Type} `{Scalar A}.
Variables (self : NN.module A) (T : tensor A).
Hypothesis basis : rgb_basis self T.

Local Ltac run := cbn -[matmul_data Nat.mul oriented].

Lemma matmul_basis (inverse : bool) (flat : tensor A) (c n : nat) :
  shape flat = [c; n] ->
  (if inverse then
     tr <- NN.getattr self "transform" ;;
     trt <- transpose tr ;;
     matmul trt flat
   else
     tr <- NN.getattr self "transform" ;;
     matmul tr flat)
  = if 3 =? c then
      ret (Tensor [None; nth 1 (names flat) None] [3; n]
             (matmul_data 3 3 n (oriented T inverse) (data flat)))
    else raise RuntimeError_size_mismatch.
Proof.
  destruct basis as (HT & Hsh & Hn). intros Hflat.
  rewrite HT. destruct inverse; run.
  - unfold transpose, matmul. rewrite Hsh, Hn, Hflat. run.
    destruct (3 =? c); reflexivity.
  - unfold matmul. rewrite Hsh, Hn, Hflat. run.
    destruct (3 =? c); reflexivity.
Qed.

(** On three channels [forward] is the matrix product alone. *)
Lemma forward_rgb (h w : nat) (d : list A) (inverse : bool) :
  ToRGB.forward self (Tensor CHW [3; h; w] d) inverse
  = inr (Tensor CHW [3; h; w]
           (matmul_data 3 3 (h * (w * 1)) (oriented T inverse) d)).
Proof.
  unfold ToRGB.forward. run.
  rewrite matmul_basis with (c := 3) (n := h * (w * 1)) by reflexivity.
  run. unfold unflatten. run. rewrite Nat.eqb_refl. reflexivity.
Qed.

(** On four channels the product is taken of the first three and the
    fourth follows it in the storage. *)
Lemma forward_rgba (h w : nat) (d : list A) (inverse : bool) :
  ToRGB.forward self (Tensor CHW [4; h; w] d) inverse
  = inr (Tensor CHW [4; h; w]
           (matmul_data 3 3 (h * (w * 1)) (oriented T inverse)
              (firstn (3 * (h * (w * 1))) d)
            ++ firstn (1 * (h * (w * 1))) (skipn (3 * (h * (w * 1))) d))).
Proof.
  unfold ToRGB.forward. run.
  rewrite matmul_basis with (c := 3) (n := h * (w * 1)) by reflexivity.
  run. unfold unflatten. run. rewrite Nat.eqb_refl. run.
  unfold cat0. run. rewrite !Nat.eqb_refl. reflexivity.
Qed.

(** With any other number of channels the product is refused. *)
Lemma forward_mismatch (c h w : nat) (d : list A) (inverse : bool) :
  c <> 3 -> c <> 4 ->
  ToRGB.forward self (Tensor CHW [c; h; w] d) inverse
  = inl RuntimeError_size_mismatch.
Proof.
  intros H3 H4. unfold ToRGB.forward. run.
  destruct (c =? 4) eqn:E4; [apply Nat.eqb_eq in E4; contradiction|].
  run.
  rewrite matmul_basis with (c := c) (n := h * (w * 1)) by reflexivity.
  destruct (3 =? c) eqn:E3; [apply Nat.eqb_eq in E3; congruence|].
  reflexivity.
Qed.

End ToRGBForward.

Lemma with_transform_basis {A} (T : tensor A) :
  shape T = [3; 3] -> names T = [None; None] ->
  exists self, ToRGB.with_transform T = inr self /\ rgb_basis self T.
Proof.
  intros Hs Hn. eexists. split; [reflexivity|].
  repeat split; assumption.
Qed.

(** C9: [forward] takes tensors of exactly three dimensions.  On every
    tensor of another rank, a batched four-dimensional one for instance,
    the first assertion fails, whatever the module holds and whichever
    direction is asked for, before anything is computed. *)
Theorem forward_rank_assertion {A} `{Scalar A}
        (self : NN.module A) (x : tensor A) (inverse : bool) :
  dim x <> 3 -> ToRGB.forward self x inverse = inl AssertionError.
Proof.
  intros Hd. unfold ToRGB.forward.
  destruct (dim x =? 3) eqn:E; [apply Nat.eqb_eq in E; contradiction|].
  reflexivity.
Qed.

Lemma forward_rank_assertion_witness :
  ToRGB.forward NN.empty
    (Tensor [None; Some "C"; Some "H"; Some "W"]%string [1; 3; 1; 1]
       [1; 2; 3]%Z) false
  = inl AssertionError.
Proof. apply forward_rank_assertion. unfold dim. simpl. lia. Defined.

(** C7: on an image tensor of [c] channels, [forward] raises the size
    mismatch of the matrix product when the channel count left after the
    alpha channel has been taken off is not 3, and returns a tensor when it
    is 3. *)
Theorem forward_channel_count {A} `{Scalar A}
        (self : NN.module A) (T x : tensor A) (c h w : nat) (inverse : bool) :
  rgb_basis self T ->
  names x = CHW -> shape x = [c; h; w] ->
  (colour_channels c <> 3 ->
   ToRGB.forward self x inverse = inl RuntimeError_size_mismatch)
  /\ (colour_channels c = 3 ->
      exists y, ToRGB.forward self x inverse = inr y).
Proof.
  intros Hb Hn Hs. destruct x as [ns sh d]. simpl in Hn, Hs. subst ns sh.
  unfold colour_channels. split.
  - destruct (c =? 4) eqn:E4; [congruence|]. intros H3.
    apply Nat.eqb_neq in E4. now apply forward_mismatch with (T := T).
  - destruct (c =? 4) eqn:E4; intros H3.
    + apply Nat.eqb_eq in E4. subst c. eexists.
      now apply forward_rgba with (T := T).
    + subst c. eexists. now apply forward_rgb with (T := T).
Qed.

Lemma forward_channel_count_witness :
  ToRGB.forward
    (NN.Module_ [] [] [("transform"%string,
                        unnamed [3; 3] [1; 2; 3; 4; 5; 6; 7; 8; 10]%Z)])
    (Tensor CHW [2; 1; 2] [1; 2; 3; 4]%Z) true
  = inl RuntimeError_size_mismatch.
Proof.
  refine (proj1 (@forward_channel_count Z _ _
                   (unnamed [3; 3] [1; 2; 3; 4; 5; 6; 7; 8; 10]%Z)
                   _ 2 1 2 true _ _ _) _).
  - repeat split; reflexivity.
  - reflexivity.
  - reflexivity.
  - unfold colour_channels. simpl. lia.
Defined.

(** C6: on an image tensor of four channels, in either direction, the
    fourth plane of the result is the fourth plane of the input, element
    for element, whatever the scalars are; and the first three planes of
    the result are what [forward] makes of the first three planes of the
    input. *)
Theorem forward_alpha_passthrough {A} `{Scalar A}
        (self : NN.module A) (T x : tensor A) (h w : nat) (inverse : bool) :
  rgb_basis self T ->
  names x = CHW -> shape x = [4; h; w] ->
  exists y rgb yrgb,
    ToRGB.forward self x inverse = inr y
    /\ slice0 3 None y = slice0 3 None x
    /\ slice0 0 (Some 3) x = inr rgb
    /\ ToRGB.forward self rgb inverse = inr yrgb
    /\ slice0 0 (Some 3) y = inr yrgb.
Proof.
  intros Hb Hn Hs. destruct x as [ns sh d]. simpl in Hn, Hs. subst ns sh.
  set (n := h * (w * 1)).
  assert (Hlen : forall l : list A,
             length (matmul_data 3 3 n (oriented T inverse) l) = 3 * n)
    by (intros l; apply length_matmul_data).
  eexists. eexists. eexists.
  split; [apply forward_rgba with (T := T); exact Hb|].
  fold n. unfold slice0, ret.
  cbn -[matmul_data Nat.mul oriented firstn skipn].
  change (h * (w * 1)) with n.
  repeat split.
  - do 2 f_equal. rewrite skipn_app_exact by apply Hlen.
    apply firstn_idem.
  - rewrite forward_rgb with (T := T) by exact Hb. fold n.
    do 2 f_equal. simpl skipn.
    now rewrite firstn_app_exact by apply Hlen.
Qed.

Lemma forward_alpha_passthrough_witness :
  exists y,
    ToRGB.forward
      (NN.Module_ [] [] [("transform"%string,
                          unnamed [3; 3] [1; 2; 3; 4; 5; 6; 7; 8; 10]%Z)])
      (Tensor CHW [4; 1; 2] [1; 2; 3; 4; 5; 6; 7; 8]%Z) true = inr y
    /\ slice0 3 None y = inr (Tensor CHW [1; 1; 2] [7; 8]%Z).
Proof.
  destruct (@forward_alpha_passthrough Z _
              (NN.Module_ [] [] [("transform"%string,
                                  unnamed [3; 3] [1; 2; 3; 4; 5; 6; 7; 8; 10]%Z)])
              (unnamed [3; 3] [1; 2; 3; 4; 5; 6; 7; 8; 10]%Z)
              (Tensor CHW [4; 1; 2] [1; 2; 3; 4; 5; 6; 7; 8]%Z) 1 2 true)
    as (y & _ & _ & Hy & Ha & _).
  - repeat split; reflexivity.
  - reflexivity.
  - reflexivity.
  - exists y. split; [exact Hy|]. rewrite Ha. reflexivity.
Defined.

(** ** The two bases *)

Section Bases.
Local Open Scope R_scope.

(** The largest column norm of the KLT matrix is that of its first
    column. *)
Lemma klt_norm :
  ToRGB.np_max (ToRGB.norm_axis0 (ToRGB.asarray ToRGB.KLT))
  = sqrt (2134 / 10000).
Proof.
  cbn -[sqrt Rmax Rmult Rplus Rdiv].
  rewrite Rmax_left.
  - rewrite Rmax_left; [f_equal; lra|].
    apply sqrt_le_1_alt. lra.
  - rewrite Rmax_left; apply sqrt_le_1_alt; lra.
Qed.

Lemma klt_transform_eq :
  ToRGB.klt_transform
  = unnamed [3; 3]%nat
      (map (fun v => v / sqrt (2134 / 10000)) (concat ToRGB.KLT)).
Proof.
  unfold ToRGB.klt_transform, tmap. rewrite klt_norm. reflexivity.
Qed.

Lemma klt_basis :
  exists self, ToRGB.init "klt" = inr self
               /\ rgb_basis self ToRGB.klt_transform.
Proof.
  apply with_transform_basis; rewrite klt_transform_eq; reflexivity.
Qed.

Lemma i1i2i3_basis :
  exists self, ToRGB.init "i1i2i3" = inr self
               /\ rgb_basis self ToRGB.i1i2i3_transform.
Proof. apply with_transform_basis; reflexivity. Qed.

Lemma init_unknown_name : ToRGB.init "rgb" = inl ValueError.
Proof. reflexivity. Qed.

Lemma gram_apply (a0 a3 a6 t0 t1 t2 t3 t4 t5 t6 t7 t8 x0 x1 x2 : R) :
  0 + a0 * (0 + t0 * x0 + t1 * x1 + t2 * x2)
    + a3 * (0 + t3 * x0 + t4 * x1 + t5 * x2)
    + a6 * (0 + t6 * x0 + t7 * x1 + t8 * x2)
  = (0 + a0 * t0 + a3 * t3 + a6 * t6) * x0
    + (0 + a0 * t1 + a3 * t4 + a6 * t7) * x1
    + (0 + a0 * t2 + a3 * t5 + a6 * t8) * x2.
Proof. ring. Qed.

(** The product by the transpose undoes the product by a matrix of
    orthonormal columns. *)
Lemma roundtrip_data (T : tensor R) (n : nat) (d : list R) :
  orthonormal_columns T -> length d = (3 * n)%nat ->
  matmul_data 3 3 n (oriented T true) (matmul_data 3 3 n (oriented T false) d)
  = d.
Proof.
  intros Ho Hl.
  apply nth_ext with (d := 0) (d' := 0).
  - now rewrite length_matmul_data.
  - rewrite length_matmul_data. intros p Hp.
    assert (Hn : (0 < n)%nat) by lia.
    pose proof (Nat.div_mod_eq p n) as Hd.
    pose proof (Nat.mod_upper_bound p n ltac:(lia)) as Hj.
    set (i := (p / n)%nat) in *. set (j := (p mod n)%nat) in *.
    assert (Hi : (i < 3)%nat) by nia.
    replace p with (i * n + j)%nat by lia.
    change (nth (i * n + j) ?l 0) with (get l (i * n + j)).
    rewrite get_matmul_data by assumption.
    pose proof (Ho i 0%nat Hi ltac:(lia)) as H0.
    pose proof (Ho i 1%nat Hi ltac:(lia)) as H1.
    pose proof (Ho i 2%nat Hi ltac:(lia)) as H2.
    unfold gram, sum_upto in H0, H1, H2. unfold sum_upto.
    cbn [seq fold_left sadd smul szero Scalar_R] in *.
    rewrite !get_matmul_data by lia.
    unfold sum_upto. cbn [seq fold_left sadd smul szero Scalar_R oriented].
    destruct i as [|[|[|i]]]; [| | |lia];
      cbn -[Rmult Rplus get] in *; unfold get in *; cbn [nth] in *;
      rewrite gram_apply, H0, H1, H2; ring.
Qed.

(** X8: with a basis of orthonormal columns the inverse direction of
    [forward] undoes the forward direction exactly, on every well-formed
    image tensor of three channels. *)
Lemma roundtrip_orthonormal (self : NN.module R) (T x : tensor R)
      (h w : nat) :
  rgb_basis self T -> orthonormal_columns T ->
  names x = CHW -> shape x = [3; h; w]%nat ->
  length (data x) = (3 * (h * w))%nat ->
  exists y, ToRGB.forward self x false = inr y
            /\ ToRGB.forward self y true = inr x.
Proof.
  intros Hb Ho Hn Hs Hl. destruct x as [ns sh d]. simpl in Hn, Hs, Hl.
  subst ns sh. eexists.
  split; [apply forward_rgb with (T := T); exact Hb|].
  rewrite forward_rgb with (T := T) by exact Hb.
  rewrite roundtrip_data; [reflexivity|exact Ho|].
  rewrite Hl. lia.
Qed.

Lemma rotation_orthonormal : orthonormal_columns rotation.
Proof.
  intros i l Hi Hl.
  destruct i as [|[|[|i]]]; [| | |lia];
    (destruct l as [|[|[|l]]]; [| | |lia]);
    unfold gram, sum_upto; cbn; lra.
Qed.

Lemma i1i2i3_not_orthonormal :
  ~ orthonormal_columns ToRGB.i1i2i3_transform.
Proof.
  intros Ho. specialize (Ho 0%nat 0%nat ltac:(lia) ltac:(lia)).
  unfold gram, sum_upto in Ho. cbn in Ho. lra.
Qed.

Lemma klt_not_orthonormal : ~ orthonormal_columns ToRGB.klt_transform.
Proof.
  intros Ho. specialize (Ho 1%nat 1%nat ltac:(lia) ltac:(lia)).
  rewrite klt_transform_eq in Ho.
  unfold gram, sum_upto in Ho. cbn -[sqrt] in Ho.
  assert (Hsq : sqrt (2134 / 10000) * sqrt (2134 / 10000) = 2134 / 10000)
    by (apply sqrt_sqrt; lra).
  assert (Hpos : 0 < sqrt (2134 / 10000)) by (apply sqrt_lt_R0; lra).
  set (s := sqrt (2134 / 10000)) in *.
  assert (Hr : / s * / s = 10000 / 2134).
  { rewrite <- Rinv_mult, Hsq. lra. }
  unfold Rdiv in Ho. set (r := / s) in *. nra.
Qed.

(** C1, evaluated: the round trip through [forward] and its [inverse]
    direction does not return the pixel it was given.  With the "i1i2i3"
    basis the red pixel (1, 0, 0) comes back as (61/144, -1/72, -11/144);
    with the "klt" basis the pixel (0, 1, 0) comes back as
    (-9/2134, 162/2134, -9/2134).  The transposed matrix is not the
    inverse of either basis. *)
Theorem roundtrip_not_identity :
  (exists self y z,
      ToRGB.init "i1i2i3" = inr self
      /\ ToRGB.forward self (pixel 1 0 0) false = inr y
      /\ ToRGB.forward self y true = inr z
      /\ z = pixel (61 / 144) (- 1 / 72) (- 11 / 144))
  /\ (exists self y z,
         ToRGB.init "klt" = inr self
         /\ ToRGB.forward self (pixel 0 1 0) false = inr y
         /\ ToRGB.forward self y true = inr z
         /\ z = pixel (- 9 / 2134) (162 / 2134) (- 9 / 2134)).
Proof.
  split.
  - destruct i1i2i3_basis as (self & Hi & Hb).
    exists self. eexists. eexists.
    split; [exact Hi|].
    split; [apply forward_rgb with (T := ToRGB.i1i2i3_transform); exact Hb|].
    split; [apply forward_rgb with (T := ToRGB.i1i2i3_transform); exact Hb|].
    unfold pixel. f_equal. cbn.
    repeat (apply (f_equal2 (@cons R)); [lra|]). reflexivity.
  - destruct klt_basis as (self & Hi & Hb).
    exists self. eexists. eexists.
    split; [exact Hi|].
    split; [apply forward_rgb with (T := ToRGB.klt_transform); exact Hb|].
    split; [apply forward_rgb with (T := ToRGB.klt_transform); exact Hb|].
    unfold pixel. f_equal. rewrite klt_transform_eq.
    cbn -[sqrt].
    assert (Hpos : 0 < sqrt (2134 / 10000)) by (apply sqrt_lt_R0; lra).
    assert (Hsq : sqrt (2134 / 10000) * sqrt (2134 / 10000) = 2134 / 10000)
      by (apply sqrt_sqrt; lra).
    set (s := sqrt (2134 / 10000)) in *.
    assert (Hr : / s * / s = 10000 / 2134).
    { rewrite <- Rinv_mult, Hsq. lra. }
    unfold Rdiv. set (r := / s) in *.
    repeat (apply (f_equal2 (@cons R)); [nra|]). reflexivity.
Qed.

End Bases.

(** ** logit *)

Section LogitProperties.
Local Open Scope R_scope.

(** Without the clamp the two boundary values leave the finite range. *)
Lemma unclamped_boundary :
  xlog (xdiv 0 (1 - 0)) = NInf /\ xlog (xdiv 1 (1 - 1)) = PInf.
Proof.
  unfold xdiv, xlog. split.
  - destruct (Req_dec_T (1 - 0) 0) as [E|_]; [lra|].
    destruct (Rlt_dec 0 (0 / (1 - 0))) as [L|_]; [lra|].
    destruct (Req_dec_T (0 / (1 - 0)) 0) as [_|N]; [reflexivity|lra].
  - destruct (Req_dec_T (1 - 1) 0) as [_|N]; [|lra].
    destruct (Req_dec_T 1 0) as [E|_]; [lra|].
    destruct (Rlt_dec 0 1) as [_|N]; [reflexivity|lra].
Qed.

(** On a single value that the clamp sends strictly inside (0, 1), the
    assertion holds and the logarithm is that of a positive quotient. *)
Lemma logit_scalar (v epsilon c : R) :
  clamp epsilon (1 - epsilon) v = c -> 0 < c < 1 ->
  logit (scalar_tensor v) epsilon
  = inr (scalar_tensor (Fin (ln (c / (1 - c))))).
Proof.
  intros Hc [H0 H1]. unfold logit, scalar_tensor, tmap.
  cbn -[clamp]. rewrite Hc.
  destruct (Rle_dec 0 c) as [_|N]; [|lra].
  cbn. destruct (Rlt_dec c 1) as [_|N]; [|lra].
  cbn. unfold xdiv.
  destruct (Req_dec_T (1 - c) 0) as [E|_]; [lra|].
  unfold xlog.
  destruct (Rlt_dec 0 (c / (1 - c))) as [_|N]; [reflexivity|].
  exfalso. apply N. apply Rdiv_lt_0_compat; lra.
Qed.

(** C5: for an [epsilon] between 2^-24 and 1/2, the epsilons that
    [float32] tells from 0 next to 1, among them the default 1e-6 and the
    1e-4 of [NaturalImage.set_image], no input raises: every value is first
    brought into [epsilon, 1 - epsilon] and its logit is the logarithm of a
    positive quotient.  In particular the boundary inputs 0 and 1 give
    finite values: [logit 0] is the value of [logit epsilon] and [logit 1]
    is the value of [logit (1 - epsilon)]. *)
Theorem logit_boundary_clamp (epsilon : R) :
  float32_resolution <= epsilon <= 1 / 2 ->
  let lo := ln (epsilon / (1 - epsilon)) in
  let hi := ln ((1 - epsilon) / (1 - (1 - epsilon))) in
  logit (scalar_tensor 0) epsilon = inr (scalar_tensor (Fin lo))
  /\ logit (scalar_tensor epsilon) epsilon = inr (scalar_tensor (Fin lo))
  /\ logit (scalar_tensor 1) epsilon = inr (scalar_tensor (Fin hi))
  /\ logit (scalar_tensor (1 - epsilon)) epsilon
     = inr (scalar_tensor (Fin hi))
  /\ (forall v, exists c,
         clamp epsilon (1 - epsilon) v = c
         /\ epsilon <= c <= 1 - epsilon
         /\ logit (scalar_tensor v) epsilon
            = inr (scalar_tensor (Fin (ln (c / (1 - c)))))).
Proof.
  intros [Hf H1] lo hi. unfold lo, hi.
  assert (H0 : 0 < epsilon) by (unfold float32_resolution in Hf; lra).
  repeat match goal with |- _ /\ _ => split end.
  - apply logit_scalar; [|lra]. unfold clamp.
    rewrite Rmax_right by lra. apply Rmin_left. lra.
  - apply logit_scalar; [|lra]. unfold clamp.
    rewrite Rmax_left by lra. apply Rmin_left. lra.
  - apply logit_scalar; [|lra]. unfold clamp.
    rewrite Rmax_left by lra. apply Rmin_right. lra.
  - apply logit_scalar; [|lra]. unfold clamp.
    rewrite Rmax_left by lra. apply Rmin_left. lra.
  - intros v. exists (clamp epsilon (1 - epsilon) v).
    assert (Hc : epsilon <= clamp epsilon (1 - epsilon) v <= 1 - epsilon).
    { unfold clamp. split.
      - apply Rmin_glb; [apply Rmax_r|lra].
      - apply Rmin_r. }
    split; [reflexivity|]. split; [exact Hc|].
    apply logit_scalar; [reflexivity|lra].
Qed.

Lemma logit_boundary_clamp_witness :
  logit (scalar_tensor 0) default_epsilon
  = logit (scalar_tensor default_epsilon) default_epsilon
  /\ logit (scalar_tensor 1) default_epsilon
     = logit (scalar_tensor (1 - default_epsilon)) default_epsilon.
Proof.
  assert (Heps : float32_resolution <= default_epsilon <= 1 / 2)
    by (unfold float32_resolution, default_epsilon; lra).
  destruct (logit_boundary_clamp Heps) as (A0 & A1 & A2 & A3 & _).
  split; congruence.
Defined.

End LogitProperties.

(** ** The frequency grid and the spectrum scale *)

Lemma fftfreq_pos (n : nat) :
  0 < n -> exists l, fftfreq n = inr l /\ length l = n.
Proof.
  intros Hn. unfold fftfreq.
  destruct (n =? 0) eqn:E; [apply Nat.eqb_eq in E; lia|].
  eexists. split; [reflexivity|]. now rewrite length_map, length_seq.
Qed.

Lemma fftfreq_zero : fftfreq 0 = inl ZeroDivisionError.
Proof. reflexivity. Qed.

(** The slice [[: width // 2 + add]] of the [width] column frequencies. *)
Lemma grid_columns_min (w : nat) :
  0 < w ->
  Nat.min (w / 2 + (if w mod 2 =? 1 then 2 else 1)) w = grid_columns w.
Proof.
  intros Hw. unfold grid_columns.
  pose proof (Nat.div_mod_eq w 2) as Hd.
  pose proof (Nat.mod_upper_bound w 2) as Hm.
  destruct (w mod 2 =? 1) eqn:E1.
  - apply Nat.eqb_eq in E1. rewrite E1. cbn [Nat.eqb orb].
    destruct (w =? 1) eqn:E;
      [apply Nat.eqb_eq in E | apply Nat.eqb_neq in E]; lia.
  - apply Nat.eqb_neq in E1.
    assert (E0 : w mod 2 = 0) by lia. rewrite E0. cbn [Nat.eqb orb]. lia.
Qed.

Lemma grid_columns_even (w : nat) :
  w mod 2 = 0 -> grid_columns w = w / 2 + 1.
Proof. intros E. unfold grid_columns. now rewrite E. Qed.

Lemma grid_columns_odd (w : nat) :
  w mod 2 = 1 -> 3 <= w -> grid_columns w = w / 2 + 2.
Proof.
  intros E Hw. unfold grid_columns. rewrite E. cbn [Nat.eqb orb].
  destruct (w =? 1) eqn:E1; [apply Nat.eqb_eq in E1; lia|reflexivity].
Qed.

Lemma broadcast_same (s : list nat) : broadcast_shapes s s = inr s.
Proof.
  unfold broadcast_shapes.
  assert (Hr : forall r, broadcast_rev r r = inr r).
  { induction r as [|a r IH]; simpl; [reflexivity|].
    rewrite IH. simpl. now rewrite Nat.eqb_refl. }
  rewrite Hr. simpl. now rewrite rev_involutive.
Qed.

Lemma broadcast_row_col (h n : nat) :
  broadcast_shapes [n] [h; 1] = inr [h; n].
Proof.
  unfold broadcast_shapes. simpl.
  destruct (n =? 1) eqn:E; [|reflexivity].
  apply Nat.eqb_eq in E. subst. reflexivity.
Qed.

Lemma rfft2d_freqs_ok (h w : nat) :
  0 < h -> 0 < w ->
  exists freqs,
    FFTImage.rfft2d_freqs h w = inr freqs
    /\ names freqs = [None; None]
    /\ shape freqs = [h; grid_columns w]
    /\ length (data freqs) = h * grid_columns w.
Proof.
  intros Hh Hw. unfold FFTImage.rfft2d_freqs.
  destruct (fftfreq_pos Hh) as (fy & -> & Ly).
  destruct (fftfreq_pos Hw) as (fx & -> & Lx).
  cbn [bind]. unfold binop. cbn [shape unnamed].
  rewrite !broadcast_same. cbn [bind length names repeat].
  rewrite length_firstn, Lx, Ly, grid_columns_min by assumption.
  cbn -[numel seq Rmult get bindex].
  rewrite broadcast_row_col. cbn -[numel seq Rmult get bindex Rplus].
  eexists. split; [reflexivity|]. cbn -[numel seq Rmult get bindex Rplus].
  repeat split. rewrite !length_map, length_seq. simpl. lia.
Qed.

(** What [__init__] builds for a size of two positive dimensions. *)
Lemma init_ok (h w c : nat) (rng : nat -> R) :
  0 < h -> 0 < w ->
  exists freqs,
    FFTImage.rfft2d_freqs h w = inr freqs
    /\ names freqs = [None; None]
    /\ shape freqs = [h; grid_columns w]
    /\ length (data freqs) = h * grid_columns w
    /\ FFTImage.init [h; w] c rng
       = inr (FFTImage.Make [h; w]
                (NN.Module_ []
                   [("fourier_coeffs"%string, FFTImage.initial_coeffs c h w rng)]
                   [("spectrum_scale"%string, FFTImage.scale_grid h w freqs)])).
Proof.
  intros Hh Hw.
  destruct (rfft2d_freqs_ok Hh Hw) as (freqs & Hf & Hn & Hs & Hl).
  exists freqs. repeat (split; [assumption|]).
  unfold FFTImage.init. cbn [length Nat.eqb assert bind ret nth].
  unfold NN.setattr, NN.empty. cbn [bind ret]. rewrite Hf. reflexivity.
Qed.

Lemma init_bad_size (c : nat) (rng : nat -> R) :
  FFTImage.init [4; 4; 4] c rng = inl AssertionError.
Proof. reflexivity. Qed.

(** C2, as stated, fails: for the size (2, 3) the stored scale has three
    columns, not [3 // 2 + 1 = 2]. *)
Lemma scale_shape_half_width_counterexample :
  ~ (forall (h w c : nat) (rng : nat -> R),
        0 < h -> 0 < w ->
        exists self sc,
          FFTImage.init [h; w] c rng = inr self
          /\ NN.getattr (FFTImage.nn self) "spectrum_scale" = inr sc
          /\ shape sc = [1; h; w / 2 + 1; 1]).
Proof.
  intros Hall.
  destruct (Hall 2 3 3 (fun _ => 0%R)) as (self & sc & Hi & Hg & Hsc);
    [lia|lia|].
  destruct (@init_ok 2 3 3 (fun _ => 0%R)) as (freqs & _ & _ & Hs & _ & Hi');
    [lia|lia|].
  rewrite Hi' in Hi. injection Hi as <-.
  cbn in Hg. injection Hg as <-.
  cbn [FFTImage.scale_grid expand_none_first_last tmap shape] in Hsc.
  rewrite Hs in Hsc. discriminate Hsc.
Qed.

(** C2, amended: for a size of two positive dimensions the scale stored at
    construction has the shape (1, height, n, 1), where n is
    [width // 2 + 1] when the width is even or 1, and [width // 2 + 2] when
    the width is odd and at least 3. *)
Theorem scale_shape (h w c : nat) (rng : nat -> R) :
  0 < h -> 0 < w ->
  exists self sc,
    FFTImage.init [h; w] c rng = inr self
    /\ NN.getattr (FFTImage.nn self) "spectrum_scale" = inr sc
    /\ shape sc = [1; h; grid_columns w; 1].
Proof.
  intros Hh Hw.
  destruct (init_ok c rng Hh Hw) as (freqs & _ & _ & Hs & _ & Hi).
  eexists. eexists. split; [exact Hi|]. split; [reflexivity|].
  cbn [FFTImage.scale_grid expand_none_first_last tmap shape].
  now rewrite Hs.
Qed.

Lemma scale_shape_witness :
  exists self sc,
    FFTImage.init [2; 5] 3 (fun _ => 0%R) = inr self
    /\ NN.getattr (FFTImage.nn self) "spectrum_scale" = inr sc
    /\ shape sc = [1; 2; 4; 1].
Proof. apply (@scale_shape 2 5 3 (fun _ => 0%R)); lia. Defined.

Section ScalePositive.
Local Open Scope R_scope.

Lemma floor_positive (h w : nat) :
  (0 < h)%nat -> 0 < 1 / INR (Nat.max h w).
Proof.
  intros Hh. apply Rdiv_lt_0_compat; [lra|].
  apply lt_0_INR. lia.
Qed.

Lemma scale_entry_positive (h w : nat) (f : R) :
  (0 < h)%nat -> (0 < w)%nat ->
  0 < Rmax f (1 / INR (Nat.max h w))
  /\ 0 < 1 / Rmax f (1 / INR (Nat.max h w)) * sqrt (INR (h * w)).
Proof.
  intros Hh Hw.
  assert (Hd : 0 < Rmax f (1 / INR (Nat.max h w))).
  { eapply Rlt_le_trans; [apply (floor_positive w Hh)|apply Rmax_r]. }
  split; [exact Hd|].
  apply Rmult_lt_0_compat.
  - apply Rdiv_lt_0_compat; [lra|exact Hd].
  - apply sqrt_lt_R0. apply lt_0_INR. nia.
Qed.

(** C8: for a size of two positive dimensions, construction succeeds and
    every entry of the stored scale is [1 / max(f, 1 / max(h, w))] times
    [sqrt(h * w)] for the entry [f] of the frequency grid in its place;
    every divisor [max(f, 1 / max(h, w))] is strictly positive, so that no
    entry is the result of a division by zero, and every entry is
    strictly positive. *)
Theorem scale_positive (h w c : nat) (rng : nat -> R) :
  (0 < h)%nat -> (0 < w)%nat ->
  exists self sc freqs,
    FFTImage.init [h; w] c rng = inr self
    /\ NN.getattr (FFTImage.nn self) "spectrum_scale" = inr sc
    /\ FFTImage.rfft2d_freqs h w = inr freqs
    /\ data sc
       = map (fun f => 1 / Rmax f (1 / INR (Nat.max h w))
                       * sqrt (INR (h * w)))
           (data freqs)
    /\ length (data sc) = (h * grid_columns w)%nat
    /\ Forall (fun f => 0 < Rmax f (1 / INR (Nat.max h w))) (data freqs)
    /\ Forall (fun v => 0 < v) (data sc).
Proof.
  intros Hh Hw.
  destruct (init_ok c rng Hh Hw) as (freqs & Hf & _ & _ & Hl & Hi).
  eexists. eexists. exists freqs.
  split; [exact Hi|]. split; [reflexivity|]. split; [exact Hf|].
  cbn [FFTImage.scale_grid expand_none_first_last tmap data].
  rewrite map_map. split; [reflexivity|].
  split; [now rewrite length_map|].
  split.
  - apply Forall_forall. intros f _.
    apply (scale_entry_positive f Hh Hw).
  - apply Forall_map, Forall_forall. intros f _.
    apply (scale_entry_positive f Hh Hw).
Qed.

Lemma scale_positive_witness :
  exists self sc,
    FFTImage.init [2; 3]%nat 3%nat (fun _ => 0) = inr self
    /\ NN.getattr (FFTImage.nn self) "spectrum_scale" = inr sc
    /\ length (data sc) = 6%nat
    /\ Forall (fun v => 0 < v) (data sc).
Proof.
  destruct (@scale_positive 2 3 3 (fun _ => 0))
    as (self & sc & freqs & Hi & Hg & _ & _ & Hl & _ & Hp); [lia|lia|].
  exists self, sc. repeat split; assumption.
Defined.

End ScalePositive.

(** The grid of the size (2, 3): the row frequencies 0 and -1/2 against
    the three column frequencies 0, 1/3 and -1/3. *)
Example rfft2d_freqs_2_3 :
  exists freqs,
    FFTImage.rfft2d_freqs 2 3 = inr freqs
    /\ shape freqs = [2; 3]
    /\ data freqs
       = map sqrt [0; 1 / 9; 1 / 9; 1 / 4; 13 / 36; 13 / 36]%R.
Proof.
  eexists. split; [reflexivity|]. split; [reflexivity|].
  cbn -[sqrt Rmult Rplus INR Rdiv Ropp].
  repeat (apply (f_equal2 (@cons R)); [f_equal; simpl INR; lra|]).
  reflexivity.
Qed.

(** ** FFTImage.forward and FFTImage.set_image *)

Lemma broadcast_coeffs_scale (c h k : nat) :
  broadcast_shapes [c; h; k; 2] [1; h; k; 1] = inr [c; h; k; 2].
Proof.
  unfold broadcast_shapes. simpl. rewrite !Nat.eqb_refl. simpl.
  destruct (c =? 1) eqn:E; [|reflexivity].
  apply Nat.eqb_eq in E. subst. reflexivity.
Qed.

Lemma broadcast_coeffs_scale_odd (c h k : nat) :
  2 <= k ->
  broadcast_shapes [c; h; k; 2] [1; h; S k; 1]
  = inl RuntimeError_size_mismatch.
Proof.
  intros Hk. unfold broadcast_shapes. cbn [rev app broadcast_rev].
  assert (E1 : (k =? S k) = false) by (apply Nat.eqb_neq; lia).
  assert (E2 : (k =? 1) = false) by (apply Nat.eqb_neq; lia).
  assert (E3 : (k =? 0) = false) by (apply Nat.eqb_neq; lia).
  destruct (c =? 1); cbn [bind ret Nat.eqb]; rewrite Nat.eqb_refl;
    cbn [bind ret]; rewrite E1, E2, E3; reflexivity.
Qed.

Local Ltac read_attributes :=
  cbn [FFTImage.size FFTImage.nn bind ret NN.getattr NN.attrs NN._parameters
       NN._buffers NN.lookup String.eqb Ascii.eqb Bool.eqb fst snd];
  unfold binop;
  cbn [shape names FFTImage.initial_coeffs FFTImage.scale_grid tmap randn
       unnamed expand_none_first_last].

(** For an even width [forward] returns an image of the construction
    size. *)
Lemma forward_even_width (h w c : nat) (rng : nat -> R) :
  0 < h -> 0 < w -> w mod 2 = 0 ->
  exists self out,
    FFTImage.init [h; w] c rng = inr self
    /\ FFTImage.forward self = inr out
    /\ names out = CHW
    /\ shape out = [c; h; w].
Proof.
  intros Hh Hw He.
  destruct (init_ok c rng Hh Hw) as (freqs & _ & Hn & Hs & _ & Hi).
  eexists. eexists. split; [exact Hi|].
  unfold FFTImage.forward. read_attributes.
  rewrite Hs, Hn, grid_columns_even by exact He.
  cbn [app]. rewrite broadcast_coeffs_scale.
  cbn [bind ret length repeat pad_names Nat.sub app unify_names unify_name].
  unfold irfft.
  cbn [is_unnamed names forallb name_eqb andb negb shape rev app Nat.eqb].
  cbn [unnamed length repeat].
  pose proof (Nat.div_mod_eq w 2) as Hdw.
  assert (Ewo : (2 * (w / 2 + 1 - 1) =? 0) = false)
    by (apply Nat.eqb_neq; lia).
  rewrite Ewo.
  unfold crop12. cbn [shape bind ret names].
  unfold refine_names.
  cbn [dim shape length Nat.eqb names refines_all refines andb].
  split; [reflexivity|]. cbn [names shape map]. split; [reflexivity|].
  pose proof (Nat.div_mod_eq w 2) as Hd.
  rewrite Nat.min_id. f_equal. f_equal. f_equal. lia.
Qed.

(** For an odd width of at least 3 the coefficients have [w // 2 + 1]
    columns and the scale [w // 2 + 2]: their product is refused. *)
Lemma forward_odd_width (h w c : nat) (rng : nat -> R) :
  0 < h -> w mod 2 = 1 -> 3 <= w ->
  exists self,
    FFTImage.init [h; w] c rng = inr self
    /\ FFTImage.forward self = inl RuntimeError_size_mismatch.
Proof.
  intros Hh Ho Hw.
  assert (Hw0 : 0 < w) by lia.
  destruct (init_ok c rng Hh Hw0) as (freqs & _ & Hn & Hs & _ & Hi).
  eexists. split; [exact Hi|].
  unfold FFTImage.forward. read_attributes.
  rewrite Hs, Hn, grid_columns_odd by assumption.
  replace (w / 2 + 2) with (S (w / 2 + 1)) by lia.
  cbn [app]. rewrite broadcast_coeffs_scale_odd; [reflexivity|].
  pose proof (Nat.div_mod_eq w 2) as Hd. lia.
Qed.

(** C4, evaluated: a frequency parameterization constructed with the size
    (2, 3) and 3 channels does not return an image of shape (3, 2, 3); its
    [forward] raises the size mismatch of the product of the coefficients,
    of shape (3, 2, 2, 2), by the scale, of shape (1, 2, 3, 1). *)
Theorem forward_fails_at_width_3 (rng : nat -> R) :
  exists self,
    FFTImage.init [2; 3] 3 rng = inr self
    /\ FFTImage.forward self = inl RuntimeError_size_mismatch.
Proof. apply forward_odd_width; [lia|reflexivity|lia]. Qed.

(** [set_image] cannot return once [fourier_coeffs] is a registered
    parameter: the quotient it assigns is not a parameter. *)
Lemma set_image_refused (self : FFTImage.t) (img : tensor R) :
  NN.mem "fourier_coeffs" (NN._parameters (FFTImage.nn self)) = true ->
  forall self', FFTImage.set_image self img <> inr self'.
Proof.
  intros Hp self'. unfold FFTImage.set_image.
  destruct (rfft img) as [e|coeffs]; [discriminate|]. cbn [bind].
  destruct (NN.getattr (FFTImage.nn self) "spectrum_scale") as [e|sc];
    [discriminate|]. cbn [bind].
  destruct (binop Rdiv coeffs sc) as [e|q]; [discriminate|]. cbn [bind].
  unfold NN.setattr. rewrite Hp. discriminate.
Qed.

Lemma init_registers_coeffs (size : list nat) (c : nat) (rng : nat -> R)
      (self : FFTImage.t) :
  FFTImage.init size c rng = inr self ->
  NN.mem "fourier_coeffs" (NN._parameters (FFTImage.nn self)) = true.
Proof.
  unfold FFTImage.init. intros Hi.
  destruct (assert (length size =? 2)) as [e|[]]; [discriminate|].
  cbn [bind NN.setattr NN.empty ret] in Hi.
  destruct (FFTImage.rfft2d_freqs (nth 0 size 0) (nth 1 size 0)) as [e|fr];
    [discriminate|].
  cbn in Hi. injection Hi as <-. reflexivity.
Qed.

(** X14: no call of [set_image] on a constructed frequency
    parameterization returns, whatever the size, the channel count and the
    image: it raises before or at the assignment of the coefficients. *)
Lemma set_image_never_returns (size : list nat) (c : nat) (rng : nat -> R)
      (self : FFTImage.t) (img : tensor R) :
  FFTImage.init size c rng = inr self ->
  forall self', FFTImage.set_image self img <> inr self'.
Proof.
  intros Hi. apply set_image_refused.
  exact (init_registers_coeffs _ _ _ Hi).
Qed.

(** C3, evaluated: on a frequency parameterization constructed with the
    size (2, 2) and one channel, [set_image] with an image of shape
    (1, 2, 2) computes the transform and the quotient and then raises
    [TypeError] at the assignment: no coefficient is stored. *)
Theorem set_image_type_error (rng : nat -> R) (d : list R) :
  exists self,
    FFTImage.init [2; 2] 1 rng = inr self
    /\ FFTImage.set_image self (unnamed [1; 2; 2] d) = inl TypeError.
Proof.
  destruct (@init_ok 2 2 1 rng) as (freqs & _ & Hn & Hs & _ & Hi); [lia|lia|].
  eexists. split; [exact Hi|].
  unfold FFTImage.set_image, rfft.
  cbn [names unnamed shape length repeat is_unnamed forallb name_eqb andb negb
       rfft_shape rev app bind ret].
  cbn [FFTImage.nn NN.getattr NN.attrs NN._parameters NN._buffers NN.lookup
       String.eqb Ascii.eqb Bool.eqb bind ret].
  unfold binop.
  cbn [shape names FFTImage.scale_grid tmap unnamed expand_none_first_last
       length repeat].
  rewrite Hs, Hn.
  change (grid_columns 2) with 2.
  cbn [app broadcast_shapes broadcast_rev rev Nat.eqb bind ret length repeat
       pad_names Nat.sub unify_names unify_name].
  reflexivity.
Qed.

(** ** PixelImage *)

Lemma lookup_remove {A} (k : string) (d : NN.dict A) :
  NN.lookup k (NN.remove k d) = None.
Proof.
  induction d as [|[k' v] d IH]; simpl; [reflexivity|].
  destruct (String.eqb k k') eqn:E; [exact IH|].
  simpl. now rewrite E.
Qed.

Lemma lookup_insert {A} (k : string) (v : tensor A) (d : NN.dict A) :
  NN.lookup k (NN.insert k v d) = Some v.
Proof. unfold NN.insert. simpl. now rewrite String.eqb_refl. Qed.

(** X15: [set_image] of the pixel parameterization always succeeds and
    replaces the state: whatever image was held before, [forward] then
    returns the image that was set. *)
Lemma pixel_set_image_replaces (self : PixelImage.t) (img : tensor R) :
  exists self',
    PixelImage.set_image self img = inr self'
    /\ PixelImage.forward self' = inr img.
Proof.
  eexists. split; [reflexivity|].
  unfold PixelImage.forward, NN.getattr.
  cbn [PixelImage.nn NN.attrs NN._parameters NN._buffers].
  now rewrite lookup_remove, lookup_insert.
Qed.

Lemma pixel_forward_shape (h w c : nat) (rng : nat -> R) :
  exists self out,
    PixelImage.init (Some [h; w]) (Some c) None rng = inr self
    /\ PixelImage.forward self = inr out
    /\ shape out = [c; h; w].
Proof.
  eexists. eexists. split; [reflexivity|].
  split; [reflexivity|reflexivity].
Qed.

Lemma pixel_init_seed_channels (rng : nat -> R) (d : list R) :
  PixelImage.init None None (Some (unnamed [4; 1; 1] d)) rng
  = inl AssertionError.
Proof. reflexivity. Qed.

(** C10: without a seed image the constructor needs both a size and a
    channel count.  When either is absent the assertion fails; when both
    are given, the size being a pair (height, width), construction succeeds
    and the stored image has the shape (channels, height, width). *)
Theorem pixel_init_without_seed :
  (forall channels rng,
      PixelImage.init None channels None rng = inl AssertionError)
  /\ (forall size rng,
         PixelImage.init size None None rng = inl AssertionError)
  /\ (forall h w c rng,
         exists self image,
           PixelImage.init (Some [h; w]) (Some c) None rng = inr self
           /\ NN.getattr (PixelImage.nn self) "image" = inr image
           /\ shape image = [c; h; w]).
Proof.
  split; [reflexivity|]. split.
  - intros [size|] rng; reflexivity.
  - intros h w c rng. eexists. eexists.
    split; [reflexivity|]. split; reflexivity.
Qed.

(** * Further properties *)

(** ** logit on tensors, and the sigmoid *)

Section LogitTensors.
Local Open Scope R_scope.

Lemma fold_Rmin_lower (lo : R) (d : list R) (a : R) :
  lo <= a -> Forall (fun v => lo <= v) d -> lo <= fold_left Rmin d a.
Proof.
  revert a. induction d as [|b d IH]; intros a Ha Hd; simpl; [exact Ha|].
  inversion Hd; subst. apply IH; [|assumption].
  apply Rmin_glb; assumption.
Qed.

Lemma fold_Rmax_upper (hi : R) (d : list R) (a : R) :
  a <= hi -> Forall (fun v => v <= hi) d -> fold_left Rmax d a <= hi.
Proof.
  revert a. induction d as [|b d IH]; intros a Ha Hd; simpl; [exact Ha|].
  inversion Hd; subst. apply IH; [|assumption].
  apply Rmax_lub; assumption.
Qed.

Lemma clamp_range (epsilon v : R) :
  epsilon <= 1 - epsilon ->
  epsilon <= clamp epsilon (1 - epsilon) v <= 1 - epsilon.
Proof.
  intros He. unfold clamp. split.
  - apply Rmin_glb; [apply Rmax_r|exact He].
  - apply Rmin_r.
Qed.

Lemma xlog_xdiv_inside (c : R) :
  0 < c < 1 -> xlog (xdiv c (1 - c)) = Fin (ln (c / (1 - c))).
Proof.
  intros [H0 H1]. unfold xdiv.
  destruct (Req_dec_T (1 - c) 0) as [E|_]; [lra|].
  unfold xlog.
  destruct (Rlt_dec 0 (c / (1 - c))) as [_|N]; [reflexivity|].
  exfalso. apply N. apply Rdiv_lt_0_compat; lra.
Qed.

Lemma odds_monotone (a b : R) :
  0 < a -> a <= b -> b < 1 -> a / (1 - a) <= b / (1 - b).
Proof.
  intros Ha Hab Hb.
  apply Rmult_le_reg_r with (r := (1 - a) * (1 - b)); [nra|].
  field_simplify; nra.
Qed.


Lemma ln_monotone (x y : R) : 0 < x -> x <= y -> ln x <= ln y.
Proof.
  intros Hx [Hlt|Heq].
  - left. now apply ln_increasing.
  - subst. apply Rle_refl.
Qed.

Lemma logit_value_bounds (epsilon c : R) :
  0 < epsilon <= 1 / 2 -> epsilon <= c <= 1 - epsilon ->
  ln (epsilon / (1 - epsilon)) <= ln (c / (1 - c)) <= ln ((1 - epsilon) / epsilon).
Proof.
  intros [H0 H1] [Hc0 Hc1]. split.
  - apply ln_monotone; [apply Rdiv_lt_0_compat; lra|].
    apply odds_monotone; lra.
  - apply ln_monotone; [apply Rdiv_lt_0_compat; lra|].
    replace epsilon with (1 - (1 - epsilon)) at 2 by ring.
    apply odds_monotone; lra.
Qed.

Lemma logit_nonempty (p : tensor R) (epsilon : R) :
  0 < epsilon <= 1 / 2 -> data p <> [] ->
  logit p epsilon
  = inr (tmap (fun v => Fin (ln (clamp epsilon (1 - epsilon) v
                                 / (1 - clamp epsilon (1 - epsilon) v))))
           p).
Proof.
  intros He Hd. assert (He' : epsilon <= 1 - epsilon) by lra.
  unfold logit.
  assert (Hall : Forall (fun c => epsilon <= c <= 1 - epsilon)
                   (data (tmap (clamp epsilon (1 - epsilon)) p))).
  { cbn [tmap data]. apply Forall_map, Forall_forall. intros v _.
    now apply clamp_range. }
  assert (Hne : data (tmap (clamp epsilon (1 - epsilon)) p) <> []).
  { cbn [tmap data]. destruct (data p); [congruence|discriminate]. }
  assert (Hout : tmap (fun v => xlog (xdiv v (1 - v)))
                   (tmap (clamp epsilon (1 - epsilon)) p)
                 = tmap (fun v => Fin (ln (clamp epsilon (1 - epsilon) v
                                 / (1 - clamp epsilon (1 - epsilon) v)))) p).
  { unfold tmap. cbn [names shape data]. f_equal.
    rewrite map_map. apply map_ext.
    intros v. apply xlog_xdiv_inside.
    pose proof (clamp_range v He'). lra. }
  rewrite Hout.
  set (q := tmap (clamp epsilon (1 - epsilon)) p) in *.
  unfold tensor_min, tensor_max.
  destruct (data q) as [|a d] eqn:Eq; [congruence|].
  inversion Hall as [|? ? Ha Hd']; subst.
  assert (Hmin : epsilon <= fold_left Rmin d a).
  { apply fold_Rmin_lower; [lra|].
    eapply Forall_impl; [|exact Hd']. intros; simpl in *; lra. }
  assert (Hmax : fold_left Rmax d a <= 1 - epsilon).
  { apply fold_Rmax_upper; [lra|].
    eapply Forall_impl; [|exact Hd']. intros; simpl in *; lra. }
  cbn [bind ret].
  destruct (Rle_dec 0 (fold_left Rmin d a)) as [_|N]; [|lra].
  cbn [bind ret].
  destruct (Rlt_dec (fold_left Rmax d a) 1) as [_|N]; [|lra].
  reflexivity.
Qed.

(** X1: for an [epsilon] between 2^-24 and 1/2, the epsilons that
    [float32] tells from 0 next to 1, [logit] raises on an unnamed tensor
    without elements, where [p.min()] has nothing to reduce; on every other
    unnamed tensor it passes its assertion and returns a tensor of the same
    names and shape whose entries are, in exact arithmetic, the logits of
    the clamped entries, all of them finite and all of them between
    [ln(epsilon / (1 - epsilon))] and [ln((1 - epsilon) / epsilon)]. *)
Theorem logit_tensor (p : tensor R) (epsilon : R) :
  is_unnamed p = true ->
  float32_resolution <= epsilon <= 1 / 2 ->
  (data p = [] -> logit p epsilon = inl RuntimeError_empty)
  /\ (data p <> [] ->
      exists out,
        logit p epsilon = inr out
        /\ names out = names p /\ shape out = shape p
        /\ data out
           = map (fun v => Fin (ln (clamp epsilon (1 - epsilon) v
                                    / (1 - clamp epsilon (1 - epsilon) v))))
               (data p)
        /\ Forall (fun y => exists r,
                       y = Fin r
                       /\ ln (epsilon / (1 - epsilon)) <= r
                          <= ln ((1 - epsilon) / epsilon))
             (data out)).
Proof.
  intros _ Hf.
  assert (He : 0 < epsilon <= 1 / 2) by (unfold float32_resolution in Hf; lra).
  assert (He' : epsilon <= 1 - epsilon) by lra. split.
  - intros Hd. unfold logit, tensor_min, tmap. cbn [data]. rewrite Hd.
    reflexivity.
  - intros Hd. eexists. split; [apply logit_nonempty; assumption|].
    cbn [tmap names shape data].
    split; [reflexivity|]. split; [reflexivity|]. split; [reflexivity|].
    apply Forall_map, Forall_forall. intros v _.
    eexists. split; [reflexivity|].
    apply logit_value_bounds; [exact He|now apply clamp_range].
Qed.

Lemma logit_tensor_witness :
  exists out,
    logit (unnamed [2]%nat [0; 2]) default_epsilon = inr out
    /\ shape out = [2]%nat.
Proof.
  assert (He : float32_resolution <= default_epsilon <= 1 / 2)
    by (unfold float32_resolution, default_epsilon; lra).
  destruct (proj2 (logit_tensor (unnamed [2]%nat [0; 2]) eq_refl He))
    as (out & Ho & _ & Hs & _); [discriminate|].
  exists out. split; [exact Ho|exact Hs].
Defined.

(** X2: with [epsilon = 0] the assertion guards one side only.  A value of
    0 or below passes it and its logit is minus infinity; a value of 1 or
    above fails it. *)
Theorem logit_without_margin :
  (forall v, v <= 0 -> logit (scalar_tensor v) 0 = inr (scalar_tensor NInf))
  /\ (forall v, 1 <= v -> logit (scalar_tensor v) 0 = inl AssertionError).
Proof.
  split; intros v Hv; unfold logit, scalar_tensor, tmap, tensor_min, tensor_max;
    cbn [data bind ret map fold_left]; unfold clamp.
  - rewrite Rmax_right by lra. rewrite Rmin_left by lra.
    destruct (Rle_dec 0 0) as [_|N]; [|lra]. cbn [bind ret].
    destruct (Rlt_dec 0 1) as [_|N]; [|lra]. cbn [assert bind ret].
    unfold xdiv. destruct (Req_dec_T (1 - 0) 0) as [E|_]; [lra|].
    unfold xlog. destruct (Rlt_dec 0 (0 / (1 - 0))) as [L|_]; [lra|].
    destruct (Req_dec_T (0 / (1 - 0)) 0) as [_|N]; [reflexivity|lra].
  - rewrite Rmax_left by lra. rewrite Rmin_right by lra.
    destruct (Rle_dec 0 (1 - 0)) as [_|N]; [|lra]. cbn [bind ret].
    destruct (Rlt_dec (1 - 0) 1) as [L|_]; [lra|]. reflexivity.
Qed.

Lemma logit_without_margin_witness :
  logit (scalar_tensor 0) 0 = inr (scalar_tensor NInf)
  /\ logit (scalar_tensor 1) 0 = inl AssertionError.
Proof.
  split.
  - apply (proj1 logit_without_margin). lra.
  - apply (proj2 logit_without_margin). lra.
Defined.

Lemma sigmoid_range (x : R) : 0 < sigmoid x < 1.
Proof.
  unfold sigmoid. pose proof (exp_pos (- x)) as He.
  split.
  - apply Rdiv_lt_0_compat; lra.
  - apply Rmult_lt_reg_r with (r := 1 + exp (- x)); [lra|].
    field_simplify; lra.
Qed.







End LogitTensors.

(** ** ToRGB: construction, names and the product pixel by pixel *)

(** X5: the constructor knows the two names "klt" and "i1i2i3" and no
    other.  For either it returns a module whose [transform] buffer is an
    unnamed, well-formed 3 x 3 matrix; for every other name, names differing
    in case included, it raises [ValueError]. *)
Theorem init_presets (name : string) :
  ((name = "klt" \/ name = "i1i2i3")%string ->
   exists self T,
     ToRGB.init name = inr self /\ rgb_basis self T /\ well_formed T)
  /\ (name <> "klt"%string -> name <> "i1i2i3"%string ->
      ToRGB.init name = inl ValueError).
Proof.
  split.
  - intros [-> | ->].
    + destruct klt_basis as (self & Hi & Hb).
      exists self, ToRGB.klt_transform. repeat split; try apply Hb; exact Hi.
    + destruct i1i2i3_basis as (self & Hi & Hb).
      exists self, ToRGB.i1i2i3_transform. repeat split; try apply Hb; exact Hi.
  - intros Hk Hi. unfold ToRGB.init.
    destruct (String.eqb name "klt") eqn:E1; [apply String.eqb_eq in E1; contradiction|].
    destruct (String.eqb name "i1i2i3") eqn:E2; [apply String.eqb_eq in E2; contradiction|].
    reflexivity.
Qed.

Lemma init_presets_witness :
  (exists self T, ToRGB.init "klt" = inr self /\ rgb_basis self T)
  /\ ToRGB.init "KLT" = inl ValueError.
Proof.
  split.
  - destruct (proj1 (init_presets "klt")) as (self & T & Hi & Hb & _).
    + left. reflexivity.
    + exists self, T. split; assumption.
  - apply (proj2 (init_presets "KLT")); discriminate.
Defined.

Section Pixelwise.
Context {A : Type} `{Scalar A}.

Lemma get_oriented (T : tensor A) (inverse : bool) (i k : nat) :
  i < 3 -> k < 3 ->
  get (oriented T inverse) (i * 3 + k) = basis_entry T inverse i k.
Proof.
  intros Hi Hk. unfold oriented, basis_entry. destruct inverse; [|reflexivity].
  destruct i as [|[|[|i]]]; [| | |lia];
    (destruct k as [|[|[|k]]]; [| | |lia]); reflexivity.
Qed.

Lemma get_firstn (d : list A) (n i : nat) :
  i < n -> get (firstn n d) i = get d i.
Proof.
  intros Hi. unfold get. revert n i Hi.
  induction d as [|a d IH]; intros n i Hi.
  - rewrite firstn_nil. reflexivity.
  - destruct n as [|n]; [lia|]. destruct i as [|i]; [reflexivity|].
    simpl. apply IH. lia.
Qed.

Lemma get_app_left (l1 l2 : list A) (i : nat) :
  i < length l1 -> get (l1 ++ l2) i = get l1 i.
Proof. intros Hi. unfold get. now apply app_nth1. Qed.

(** X6: on an image tensor of three or four channels, in either
    direction, [forward] returns a tensor of the same names and shape, with
    as many elements when the input is well formed, and works pixel by
    pixel: channel [i] of an output pixel, for the first three channels, is
    the sum over [k] of the matrix entry [(i, k)] times channel [k] of the
    same input pixel, the matrix being the basis or, in the inverse
    direction, its transpose. *)
Theorem forward_pixelwise (self : NN.module A) (T x : tensor A)
        (c h w : nat) (inverse : bool) :
  rgb_basis self T ->
  names x = CHW -> shape x = [c; h; w] -> c = 3 \/ c = 4 ->
  exists y,
    ToRGB.forward self x inverse = inr y
    /\ names y = CHW /\ shape y = [c; h; w]
    /\ (length (data x) = c * (h * w) -> length (data y) = c * (h * w))
    /\ forall i p, i < 3 -> p < h * w ->
         get (data y) (i * (h * w) + p)
         = sum_upto 3 (fun k => smul (basis_entry T inverse i k)
                                  (get (data x) (k * (h * w) + p))).
Proof.
  intros Hb Hn Hs Hc. destruct x as [ns sh d]. simpl in Hn, Hs. subst ns sh.
  assert (En : h * (w * 1) = h * w) by lia.
  assert (Hsum : forall (d' : list A) i p, i < 3 -> p < h * w ->
             (forall k, k < 3 -> get d' (k * (h * w) + p) = get d (k * (h * w) + p)) ->
             get (matmul_data 3 3 (h * w) (oriented T inverse) d') (i * (h * w) + p)
             = sum_upto 3 (fun k => smul (basis_entry T inverse i k)
                                      (get d (k * (h * w) + p)))).
  { intros d' i p Hi Hp Hd'. rewrite get_matmul_data by assumption.
    unfold sum_upto. cbn [seq fold_left].
    rewrite !get_oriented by lia. rewrite !Hd' by lia. reflexivity. }
  destruct Hc as [-> | ->].
  - eexists. split; [apply forward_rgb with (T := T); exact Hb|].
    rewrite En. cbn [names shape data].
    split; [reflexivity|]. split; [reflexivity|].
    split; [intros _; apply length_matmul_data|].
    intros i p Hi Hp. apply Hsum; auto.
  - eexists. split; [apply forward_rgba with (T := T); exact Hb|].
    rewrite En. cbn [names shape data].
    split; [reflexivity|]. split; [reflexivity|].
    split.
    + intros Hl. rewrite length_app, length_matmul_data, length_firstn, length_skipn.
      lia.
    + intros i p Hi Hp.
      rewrite get_app_left by (rewrite length_matmul_data; nia).
      apply Hsum; auto.
      intros k Hk. apply get_firstn. nia.
Qed.
End Pixelwise.

Lemma forward_pixelwise_witness :
  exists y,
    ToRGB.forward
      (NN.Module_ [] [] [("transform"%string,
                          unnamed [3; 3] [1; 2; 3; 4; 5; 6; 7; 8; 10]%Z)])
      (Tensor CHW [3; 1; 2] [1; 2; 3; 4; 5; 6]%Z) false = inr y
    /\ get (data y) 3 = 64%Z.
Proof.
  destruct (@forward_pixelwise Z _
              (NN.Module_ [] [] [("transform"%string,
                                  unnamed [3; 3] [1; 2; 3; 4; 5; 6; 7; 8; 10]%Z)])
              (unnamed [3; 3] [1; 2; 3; 4; 5; 6; 7; 8; 10]%Z)
              (Tensor CHW [3; 1; 2] [1; 2; 3; 4; 5; 6]%Z) 3 1 2 false)
    as (y & Hy & _ & _ & _ & Hp).
  - repeat split; reflexivity.
  - reflexivity.
  - reflexivity.
  - left. reflexivity.
  - exists y. split; [exact Hy|].
    refine (eq_trans (Hp 1 1 _ _) _); [lia|simpl; lia|reflexivity].
Defined.

Lemma forward_names_error {A} `{Scalar A}
      (self : NN.module A) (x : tensor A) (inverse : bool) :
  dim x = 3 ->
  index_of "C" (names x) = None \/ index_of "H" (names x) = None
  \/ index_of "W" (names x) = None ->
  ToRGB.forward self x inverse = inl RuntimeError_names.
Proof.
  intros Hd Hmiss. unfold ToRGB.forward. rewrite Hd.
  cbn [Nat.eqb assert bind ret].
  unfold size_named at 1.
  destruct (index_of "C" (names x)) as [ic|] eqn:EC; [|reflexivity].
  destruct (nth_error (shape x) ic) as [c|]; [|reflexivity].
  cbn [bind ret].
  destruct Hmiss as [HC|Hmiss]; [discriminate|].
  assert (Hrest : forall x' : tensor A, names x' = names x ->
            size_named x' "H" = inl RuntimeError_names
            \/ exists h, size_named x' "H" = inr h
                         /\ size_named x' "W" = inl RuntimeError_names).
  { intros x' Hn. unfold size_named. rewrite Hn.
    destruct Hmiss as [HH|HW].
    - rewrite HH. left; reflexivity.
    - destruct (index_of "H" (names x)) as [ih|]; [|left; reflexivity].
      destruct (nth_error (shape x') ih) as [h|]; [|left; reflexivity].
      rewrite HW. right. exists h. split; reflexivity. }
  destruct (c =? 4).
  - unfold slice0. unfold dim in Hd.
    destruct (shape x) as [|d0 rest] eqn:Es; [discriminate Hd|].
    cbn [bind ret dim shape]. rewrite Nat.eqb_refl.
    cbn [assert bind ret fst snd].
    match goal with |- context [size_named ?x' "H"] =>
      destruct (Hrest x' eq_refl) as [E|(h & E1 & E2)] end.
    + rewrite E. reflexivity.
    + rewrite E1. cbn [bind]. rewrite E2. reflexivity.
  - cbn [bind ret fst snd].
    destruct (Hrest x eq_refl) as [E|(h & E1 & E2)].
    + rewrite E. reflexivity.
    + rewrite E1. cbn [bind]. rewrite E2. reflexivity.
Qed.

(** X7: [forward] reads its axes by name.  A tensor of three dimensions
    that lacks one of the names "C", "H" and "W", an unnamed tensor for
    instance, is refused with the error of the name lookup, whatever the
    module holds and in either direction. *)
Theorem forward_needs_names {A} `{Scalar A}
        (self : NN.module A) (x : tensor A) (inverse : bool) :
  dim x = 3 ->
  index_of "C" (names x) = None \/ index_of "H" (names x) = None
  \/ index_of "W" (names x) = None ->
  ToRGB.forward self x inverse = inl RuntimeError_names.
Proof. apply forward_names_error. Qed.

Lemma forward_needs_names_witness :
  ToRGB.forward NN.empty (unnamed [3; 1; 1] [1; 2; 3]%Z) false
  = inl RuntimeError_names.
Proof.
  apply forward_needs_names; [reflexivity|left; reflexivity].
Defined.

Lemma roundtrip_orthonormal_witness :
  exists y,
    ToRGB.forward (NN.Module_ [] [] [("transform"%string, rotation)])
      (pixel 1 2 3)%R false = inr y
    /\ ToRGB.forward (NN.Module_ [] [] [("transform"%string, rotation)])
         y true = inr (pixel 1 2 3)%R.
Proof.
  apply (@roundtrip_orthonormal
           (NN.Module_ [] [] [("transform"%string, rotation)])
           rotation (pixel 1 2 3)%R 1 1).
  - repeat split; reflexivity.
  - exact rotation_orthonormal.
  - reflexivity.
  - reflexivity.
  - reflexivity.
Defined.

(** ** The normalisation of the KLT matrix *)

Section Normalisation.
Local Open Scope R_scope.

Lemma get_map_div (d : list R) (s : R) (i : nat) :
  get (map (fun v => v / s) d) i = get d i / s.
Proof.
  unfold get. cbn [szero Scalar_R].
  rewrite <- (map_nth (fun v => v / s) d 0 i).
  f_equal. unfold Rdiv. ring.
Qed.

Lemma fold_left_pointwise {X Y} (f g : X -> Y -> X) (l : list Y) (a : X) :
  (forall acc i, f acc i = g acc i) -> fold_left f l a = fold_left g l a.
Proof.
  intros Hfg. revert a. induction l as [|i l IH]; intros a; simpl;
    [reflexivity|]. now rewrite Hfg, IH.
Qed.

Lemma fold_sum_div (g : nat -> R) (q : R) (l : list nat) (a : R) :
  fold_left (fun acc i => acc + g i / q) l (a / q)
  = fold_left (fun acc i => acc + g i) l a / q.
Proof.
  revert a. induction l as [|i l IH]; intros a; simpl; [reflexivity|].
  rewrite <- IH. f_equal. unfold Rdiv. ring.
Qed.

Lemma fold_Rmax_div (s : R) (l : list R) (a : R) :
  0 < s ->
  fold_left Rmax (map (fun v => v / s) l) (a / s) = fold_left Rmax l a / s.
Proof.
  intros Hs. revert a. induction l as [|b l IH]; intros a; simpl; [reflexivity|].
  rewrite <- IH. f_equal.
  assert (Hi : 0 < / s) by now apply Rinv_0_lt_compat.
  unfold Rdiv. unfold Rmax.
  destruct (Rle_dec (a * / s) (b * / s)) as [L|L];
    destruct (Rle_dec a b) as [L'|L']; try reflexivity; exfalso; nra.
Qed.

(** Dividing a matrix by a positive number divides its column norms. *)
Lemma norm_axis0_div (a : tensor R) (n m : nat) (s : R) :
  shape a = [n; m] -> 0 < s ->
  ToRGB.norm_axis0 (tmap (fun v => v / s) a)
  = map (fun v => v / s) (ToRGB.norm_axis0 a).
Proof.
  intros Hsh Hs. unfold ToRGB.norm_axis0. cbn [tmap shape data]. rewrite Hsh.
  rewrite map_map. apply map_ext. intros j.
  unfold sum_upto. cbn [sadd smul szero Scalar_R].
  set (g := fun i => get (data a) (i * m + j) * get (data a) (i * m + j)).
  assert (E : fold_left
                (fun acc l => acc + get (map (fun v => v / s) (data a)) (l * m + j)
                                    * get (map (fun v => v / s) (data a)) (l * m + j))
                (seq 0 n) 0
              = fold_left (fun acc i => acc + g i) (seq 0 n) 0 / (s * s)).
  { rewrite <- fold_sum_div.
    replace (0 / (s * s)) with 0 by (unfold Rdiv; ring).
    apply fold_left_pointwise. intros acc i. rewrite !get_map_div. unfold g.
    field. lra. }
  rewrite E. fold g.
  rewrite sqrt_div_alt by nra.
  rewrite sqrt_square by lra. reflexivity.
Qed.

Lemma fold_Rmax_ge_init (l : list R) (a : R) : a <= fold_left Rmax l a.
Proof.
  revert a. induction l as [|b l IH]; intros a; simpl; [apply Rle_refl|].
  eapply Rle_trans; [apply Rmax_l|apply IH].
Qed.

Lemma np_max_upper (v : R) (l : list R) : In v l -> v <= ToRGB.np_max l.
Proof.
  destruct l as [|a l]; [intros []|]. cbn [ToRGB.np_max].
  revert a. induction l as [|b l IH]; intros a [E|Hin].
  - subst. apply Rle_refl.
  - destruct Hin.
  - subst. apply fold_Rmax_ge_init.
  - simpl. destruct Hin as [E|Hin].
    + subst. eapply Rle_trans; [apply Rmax_r|apply fold_Rmax_ge_init].
    + apply IH. right. exact Hin.
Qed.

Lemma norm_axis0_nonneg (a : tensor R) (v : R) :
  In v (ToRGB.norm_axis0 a) -> 0 <= v.
Proof.
  unfold ToRGB.norm_axis0.
  destruct (shape a) as [|n [|m [|? ?]]]; try (intros []).
  intros Hin. apply in_map_iff in Hin. destruct Hin as (j & <- & _).
  apply sqrt_pos.
Qed.

Lemma normalised_max_norm (a : tensor R) (n m : nat) :
  shape a = [n; m] -> 0 < ToRGB.np_max (ToRGB.norm_axis0 a) ->
  ToRGB.np_max
    (ToRGB.norm_axis0
       (tmap (fun v => v / ToRGB.np_max (ToRGB.norm_axis0 a)) a)) = 1.
Proof.
  intros Hsh Hs. set (s := ToRGB.np_max (ToRGB.norm_axis0 a)) in *.
  rewrite norm_axis0_div with (n := n) (m := m) by assumption.
  unfold s in *. clear s.
  destruct (ToRGB.norm_axis0 a) as [|v0 v] eqn:E.
  - simpl in Hs. lra.
  - cbn [map ToRGB.np_max] in *. rewrite fold_Rmax_div by exact Hs.
    field. lra.
Qed.

(** X9: the matrix [klt_transform] returns is normalised by its largest
    column norm: the column norms of the result, computed as the code
    computes them, lie between 0 and 1 and the largest is exactly 1. *)
Theorem klt_unit_max_norm :
  ToRGB.np_max (ToRGB.norm_axis0 ToRGB.klt_transform) = 1
  /\ Forall (fun v => 0 <= v <= 1) (ToRGB.norm_axis0 ToRGB.klt_transform).
Proof.
  assert (Hpos : 0 < ToRGB.np_max (ToRGB.norm_axis0 (ToRGB.asarray ToRGB.KLT))).
  { rewrite klt_norm. apply sqrt_lt_R0. lra. }
  assert (Hmax : ToRGB.np_max (ToRGB.norm_axis0 ToRGB.klt_transform) = 1).
  { unfold ToRGB.klt_transform.
    apply normalised_max_norm with (n := 3%nat) (m := 3%nat);
      [reflexivity|exact Hpos]. }
  split; [exact Hmax|].
  apply Forall_forall. intros v Hin. split.
  - now apply norm_axis0_nonneg with (a := ToRGB.klt_transform).
  - rewrite <- Hmax. now apply np_max_upper.
Qed.

End Normalisation.

(** ** FFTImage: construction, the frequency grid and the scale *)

Lemma div_mod_pair (a b n : nat) :
  b < n -> (a * n + b) / n = a /\ (a * n + b) mod n = b.
Proof.
  intros Hb. split.
  - symmetry. apply Nat.div_unique with (r := b); [exact Hb|lia].
  - symmetry. apply Nat.mod_unique with (q := a); [exact Hb|lia].
Qed.

Lemma bindex_row (h n a b : nat) :
  a < h -> b < n -> bindex [h; n] [n] (a * n + b) = b.
Proof.
  intros Ha Hb. unfold bindex. cbn [length Nat.sub unravel numel fold_right skipn ravel].
  rewrite Nat.div_1_r.
  destruct (div_mod_pair a Hb) as [_ ->].
  destruct (n =? 1) eqn:E; [apply Nat.eqb_eq in E|]; lia.
Qed.

Lemma bindex_col (h n a b : nat) :
  a < h -> b < n -> bindex [h; n] [h; 1] (a * n + b) = a.
Proof.
  intros Ha Hb. unfold bindex. cbn [length Nat.sub unravel numel fold_right skipn ravel Nat.eqb].
  rewrite !Nat.mul_1_r.
  destruct (div_mod_pair a Hb) as [-> _].
  rewrite Nat.mod_small by exact Ha.
  destruct (h =? 1) eqn:E; [apply Nat.eqb_eq in E|]; lia.
Qed.

Lemma bindex_vector (n b : nat) : b < n -> bindex [n] [n] b = b.
Proof.
  intros Hb. unfold bindex. cbn [length Nat.sub unravel numel fold_right skipn ravel].
  rewrite Nat.div_1_r, Nat.mod_small by exact Hb.
  destruct (n =? 1) eqn:E; [apply Nat.eqb_eq in E|]; lia.
Qed.

Lemma bindex_column_vector (h a : nat) : a < h -> bindex [h; 1] [h; 1] a = a.
Proof.
  intros Ha. unfold bindex. cbn [length Nat.sub unravel numel fold_right skipn ravel Nat.eqb].
  rewrite !Nat.mul_1_r, !Nat.div_1_r, Nat.mod_small by exact Ha.
  destruct (h =? 1) eqn:E; [apply Nat.eqb_eq in E|]; lia.
Qed.

Lemma get_map_seq {A} `{Scalar A} (f : nat -> A) (n i : nat) :
  i < n -> get (map f (seq 0 n)) i = f i.
Proof.
  intros Hi. unfold get.
  rewrite nth_indep with (d' := f 0) by (now rewrite length_map, length_seq).
  rewrite map_nth. now rewrite seq_nth.
Qed.


Section Frequencies.
Local Open Scope R_scope.

Lemma fftfreq_samples (n : nat) :
  (0 < n)%nat -> fftfreq n = inr (map (sample_frequency n) (seq 0 n)).
Proof.
  intros Hn. unfold fftfreq.
  destruct (n =? 0)%nat eqn:E; [apply Nat.eqb_eq in E; lia|]. reflexivity.
Qed.

Lemma frequency_grid (h w : nat) :
  (0 < h)%nat -> (0 < w)%nat ->
  exists freqs,
    FFTImage.rfft2d_freqs h w = inr freqs
    /\ shape freqs = [h; grid_columns w]
    /\ length (data freqs) = (h * grid_columns w)%nat
    /\ forall i j, (i < h)%nat -> (j < grid_columns w)%nat ->
         get (data freqs) (i * grid_columns w + j)
         = sqrt (sample_frequency w j * sample_frequency w j
                 + sample_frequency h i * sample_frequency h i).
Proof.
  intros Hh Hw. unfold FFTImage.rfft2d_freqs.
  rewrite (fftfreq_samples Hh), (fftfreq_samples Hw).
  cbn [bind]. unfold binop. cbn [shape unnamed].
  rewrite !broadcast_same. cbn [bind length names repeat].
  rewrite length_firstn, !length_map, !length_seq, grid_columns_min by assumption.
  set (n := grid_columns w).
  assert (Hnw : (n <= w)%nat).
  { unfold n. rewrite <- grid_columns_min by assumption. apply Nat.le_min_r. }
  assert (Hna : (n <= w / 2 + (if (w mod 2 =? 1)%nat then 2 else 1))%nat).
  { unfold n. rewrite <- grid_columns_min by assumption. apply Nat.le_min_l. }
  cbn -[numel seq Rmult get bindex Nat.div Nat.modulo].
  rewrite broadcast_row_col. cbn -[numel seq Rmult get bindex Rplus Nat.div Nat.modulo].
  eexists. split; [reflexivity|]. cbn -[numel seq Rmult get bindex Rplus Nat.div Nat.modulo].
  split; [reflexivity|].
  split; [rewrite !length_map, length_seq; simpl; lia|].
  intros i j Hi Hj.
  replace (numel [h; n]) with (h * n)%nat by (simpl; lia).
  replace (numel [n]) with n by (simpl; lia).
  replace (numel [h; 1%nat]) with h by (simpl; lia).
  rewrite map_map.
  rewrite get_map_seq by nia.
  rewrite bindex_row, bindex_col by assumption.
  rewrite !get_map_seq by assumption.
  rewrite bindex_vector, bindex_column_vector by assumption.
  rewrite get_firstn by lia.
  rewrite !get_map_seq by lia.
  reflexivity.
Qed.

Lemma sample_frequency_bounds (n i : nat) :
  (i < n)%nat -> - (1 / 2) <= sample_frequency n i <= 1 / 2.
Proof.
  intros Hi. unfold sample_frequency.
  assert (Hn : 0 < INR n) by (apply lt_0_INR; lia).
  pose proof (Nat.div_mod_eq (n - 1) 2) as Hd.
  pose proof (Nat.mod_upper_bound (n - 1) 2 ltac:(lia)) as Hm.
  destruct (i <? (n - 1) / 2 + 1)%nat eqn:E.
  - apply Nat.ltb_lt in E.
    assert (H2 : (2 * i <= n)%nat) by lia.
    apply le_INR in H2. rewrite mult_INR in H2. simpl INR in H2.
    pose proof (pos_INR i) as Hp.
    assert (Hq : INR i * (1 / INR n) = INR i / INR n) by (field; lra).
    rewrite Hq. split.
    + apply Rle_trans with 0; [lra|]. apply Rmult_le_pos; [exact Hp|].
      left. now apply Rinv_0_lt_compat.
    + apply Rmult_le_reg_r with (r := INR n); [exact Hn|].
      unfold Rdiv. rewrite Rmult_assoc, Rinv_l by lra. lra.
  - apply Nat.ltb_ge in E.
    assert (H2 : (2 * (n - i) <= n)%nat) by lia.
    apply le_INR in H2. rewrite mult_INR in H2. simpl INR in H2.
    pose proof (pos_INR (n - i)) as Hp.
    assert (Hq : - INR (n - i) * (1 / INR n) = - (INR (n - i) / INR n))
      by (field; lra).
    rewrite Hq.
    assert (Hr : 0 <= INR (n - i) / INR n <= 1 / 2).
    { split.
      - apply Rmult_le_pos; [exact Hp|]. left. now apply Rinv_0_lt_compat.
      - apply Rmult_le_reg_r with (r := INR n); [exact Hn|].
        unfold Rdiv. rewrite Rmult_assoc, Rinv_l by lra. lra. }
    lra.
Qed.

Lemma sample_frequency_0 (n : nat) : (0 < n)%nat -> sample_frequency n 0 = 0.
Proof.
  intros Hn. unfold sample_frequency.
  destruct (0 <? (n - 1) / 2 + 1)%nat eqn:E.
  - simpl INR. unfold Rdiv. ring.
  - apply Nat.ltb_ge in E. lia.
Qed.

Lemma magnitude_bounds (a b : R) :
  - (1 / 2) <= a <= 1 / 2 -> - (1 / 2) <= b <= 1 / 2 ->
  0 <= sqrt (a * a + b * b) <= sqrt (1 / 2).
Proof.
  intros Ha Hb. split; [apply sqrt_pos|].
  apply sqrt_le_1_alt. nra.
Qed.

Lemma grid_columns_pos (w : nat) : (0 < w)%nat -> (0 < grid_columns w)%nat.
Proof. intros Hw. unfold grid_columns. destruct (_ || _); lia. Qed.

Lemma frequency_bounds (h w : nat) (freqs : tensor R) :
  (0 < h)%nat -> (0 < w)%nat ->
  FFTImage.rfft2d_freqs h w = inr freqs ->
  get (data freqs) 0 = 0
  /\ Forall (fun f => 0 <= f <= sqrt (1 / 2)) (data freqs).
Proof.
  intros Hh Hw Hf.
  destruct (frequency_grid Hh Hw) as (freqs' & Hf' & Hs & Hl & Hentry).
  rewrite Hf in Hf'. injection Hf' as <-.
  pose proof (grid_columns_pos Hw) as Hn.
  assert (Hnw : (grid_columns w <= w)%nat).
  { rewrite <- grid_columns_min by assumption. apply Nat.le_min_r. }
  split.
  - replace 0%nat with (0 * grid_columns w + 0)%nat by lia.
    rewrite Hentry by assumption.
    rewrite !sample_frequency_0 by assumption.
    replace (0 * 0 + 0 * 0) with 0 by ring. apply sqrt_0.
  - apply Forall_nth. intros k d Hk. rewrite Hl in Hk.
    rewrite nth_indep with (d' := 0) by lia.
    change (nth k (data freqs) 0) with (get (data freqs) k).
    pose proof (Nat.div_mod_eq k (grid_columns w)) as Hd.
    pose proof (Nat.mod_upper_bound k (grid_columns w) ltac:(lia)) as Hm.
    replace k with ((k / grid_columns w) * grid_columns w
                    + k mod grid_columns w)%nat by lia.
    assert (Hq : (k / grid_columns w < h)%nat).
    { apply Nat.Div0.div_lt_upper_bound. nia. }
    rewrite Hentry; [|exact Hq|exact Hm].
    apply magnitude_bounds; apply sample_frequency_bounds; lia.
Qed.

(** X11: for a size of two positive dimensions the frequency grid has
    [height] rows and as many columns as column frequencies are kept; its
    entry [(i, j)] is the Euclidean norm of the pair made of the row
    frequency [i] of [height] samples and the column frequency [j] of
    [width] samples.  The first entry, the DC term, is 0, and no entry
    exceeds [sqrt(1/2)]. *)
Theorem frequency_grid_entries (h w : nat) :
  (0 < h)%nat -> (0 < w)%nat ->
  exists freqs,
    FFTImage.rfft2d_freqs h w = inr freqs
    /\ shape freqs = [h; grid_columns w]
    /\ length (data freqs) = (h * grid_columns w)%nat
    /\ (forall i j, (i < h)%nat -> (j < grid_columns w)%nat ->
          get (data freqs) (i * grid_columns w + j)
          = sqrt (sample_frequency w j * sample_frequency w j
                  + sample_frequency h i * sample_frequency h i))
    /\ get (data freqs) 0 = 0
    /\ Forall (fun f => 0 <= f <= sqrt (1 / 2)) (data freqs).
Proof.
  intros Hh Hw.
  destruct (frequency_grid Hh Hw) as (freqs & Hf & Hs & Hl & Hentry).
  destruct (frequency_bounds Hh Hw Hf) as [H0 Hb].
  exists freqs. repeat split; assumption.
Qed.

Lemma frequency_grid_entries_witness :
  exists freqs,
    FFTImage.rfft2d_freqs 2 3 = inr freqs
    /\ shape freqs = [2; 3]%nat
    /\ get (data freqs) 0 = 0.
Proof.
  destruct (@frequency_grid_entries 2 3) as (freqs & Hf & Hs & _ & _ & H0 & _);
    [lia|lia|].
  exists freqs. repeat split; assumption.
Defined.

(** X12: for a size of two positive dimensions every entry of the stored
    spectrum scale lies between [sqrt(h * w)] and
    [max(h, w) * sqrt(h * w)], and the first entry, that of the DC term,
    is the upper bound itself: there the floor [1 / max(h, w)] decides. *)
Theorem scale_bounds (h w c : nat) (rng : nat -> R) :
  (0 < h)%nat -> (0 < w)%nat ->
  exists self sc,
    FFTImage.init [h; w] c rng = inr self
    /\ NN.getattr (FFTImage.nn self) "spectrum_scale" = inr sc
    /\ get (data sc) 0 = INR (Nat.max h w) * sqrt (INR (h * w))
    /\ Forall (fun v => sqrt (INR (h * w)) <= v
                        <= INR (Nat.max h w) * sqrt (INR (h * w)))
         (data sc).
Proof.
  intros Hh Hw.
  destruct (init_ok c rng Hh Hw) as (freqs & Hf & _ & _ & Hl & Hi).
  destruct (frequency_bounds Hh Hw Hf) as [H0 Hb].
  eexists. eexists. split; [exact Hi|]. split; [reflexivity|].
  cbn [FFTImage.scale_grid expand_none_first_last tmap data].
  rewrite map_map.
  assert (Hm : 0 < INR (Nat.max h w)) by (apply lt_0_INR; lia).
  assert (Hm1 : 1 <= INR (Nat.max h w)).
  { change 1 with (INR 1). apply le_INR. lia. }
  assert (HS : 0 < sqrt (INR (h * w))).
  { apply sqrt_lt_R0. apply lt_0_INR. nia. }
  assert (Hfl : 0 < 1 / INR (Nat.max h w) <= 1).
  { split; [apply Rdiv_lt_0_compat; lra|].
    apply Rmult_le_reg_r with (r := INR (Nat.max h w)); [exact Hm|].
    unfold Rdiv. rewrite Rmult_assoc, Rinv_l by lra. lra. }
  assert (Hhalf : sqrt (1 / 2) <= 1).
  { apply Rle_trans with (sqrt 1); [apply sqrt_le_1_alt; lra|].
    rewrite sqrt_1. lra. }
  split.
  - unfold get. cbn [szero Scalar_R].
    destruct (data freqs) as [|f0 fs] eqn:Ed.
    { simpl in Hl. pose proof (grid_columns_pos Hw). nia. }
    cbn [map nth]. unfold get in H0. cbn [nth] in H0. rewrite H0.
    rewrite Rmax_right by lra. field. lra.
  - apply Forall_map. eapply Forall_impl; [|exact Hb].
    intros f [Hf0 Hf1]. cbn beta.
    set (fl := 1 / INR (Nat.max h w)) in *.
    assert (Hd : fl <= Rmax f fl <= 1).
    { split; [apply Rmax_r|apply Rmax_lub; lra]. }
    assert (Hinv : 1 <= 1 / Rmax f fl <= INR (Nat.max h w)).
    { split.
      - apply Rmult_le_reg_r with (r := Rmax f fl); [lra|].
        unfold Rdiv. rewrite Rmult_assoc, Rinv_l by lra. lra.
      - apply Rmult_le_reg_r with (r := Rmax f fl); [lra|].
        unfold Rdiv. rewrite Rmult_assoc, Rinv_l by lra.
        apply Rle_trans with (INR (Nat.max h w) * fl).
        + unfold fl. right. field. lra.
        + apply Rmult_le_compat_l; lra. }
    split; nra.
Qed.

Lemma scale_bounds_witness :
  exists self sc,
    FFTImage.init [2; 4]%nat 3%nat (fun _ => 0) = inr self
    /\ NN.getattr (FFTImage.nn self) "spectrum_scale" = inr sc
    /\ get (data sc) 0 = INR 4 * sqrt (INR 8).
Proof.
  destruct (@scale_bounds 2 4 3 (fun _ => 0)) as (self & sc & Hi & Hg & H0 & _);
    [lia|lia|].
  exists self, sc. repeat split; assumption.
Defined.

End Frequencies.

(** X10: the constructor fails its assertion when [size] has not exactly
    two entries, raises [ZeroDivisionError] (from [np.fft.fftfreq]) when one
    of the two is 0, and succeeds otherwise; it then keeps the size and
    registers as coefficients an unnamed tensor of shape
    (channels, h, w // 2 + 1, 2) whose entries are the samples divided by
    50. *)
Theorem fft_init_outcomes (size : list nat) (c : nat) (rng : nat -> R) :
  (length size <> 2 -> FFTImage.init size c rng = inl AssertionError)
  /\ (forall h w, size = [h; w] -> h = 0 \/ w = 0 ->
        FFTImage.init size c rng = inl ZeroDivisionError)
  /\ (forall h w, size = [h; w] -> 0 < h -> 0 < w ->
        exists self co,
          FFTImage.init size c rng = inr self
          /\ FFTImage.size self = size
          /\ NN.getattr (FFTImage.nn self) "fourier_coeffs" = inr co
          /\ names co = [None; None; None; None]
          /\ shape co = [c; h; w / 2 + 1; 2]
          /\ data co = map (fun i => (rng i / 50)%R)
                         (seq 0 (numel [c; h; w / 2 + 1; 2]))).
Proof.
  split; [|split].
  - intros Hl. unfold FFTImage.init.
    destruct (length size =? 2) eqn:E; [apply Nat.eqb_eq in E; contradiction|].
    reflexivity.
  - intros h w -> Hz. unfold FFTImage.init.
    cbn [length Nat.eqb assert bind ret nth NN.setattr NN.empty].
    unfold FFTImage.rfft2d_freqs.
    destruct Hz as [-> | ->]; [reflexivity|].
    destruct h as [|h]; [reflexivity|].
    destruct (@fftfreq_pos (S h)) as (fy & -> & _); [lia|].
    reflexivity.
  - intros h w -> Hh Hw.
    destruct (init_ok c rng Hh Hw) as (freqs & _ & _ & _ & _ & Hi).
    eexists. eexists. split; [exact Hi|]. split; [reflexivity|].
    split; [reflexivity|].
    cbn [FFTImage.initial_coeffs tmap randn unnamed names shape data length repeat].
    split; [reflexivity|]. split; [reflexivity|].
    now rewrite map_map.
Qed.

Lemma fft_init_outcomes_witness :
  FFTImage.init [0; 4] 3 (fun _ => 0%R) = inl ZeroDivisionError
  /\ FFTImage.init [4] 3 (fun _ => 0%R) = inl AssertionError.
Proof.
  destruct (fft_init_outcomes [0; 4] 3 (fun _ => 0%R)) as (_ & Hz & _).
  destruct (fft_init_outcomes [4] 3 (fun _ => 0%R)) as (Ha & _ & _).
  split.
  - apply (Hz 0 4); [reflexivity|left; reflexivity].
  - apply Ha. simpl. lia.
Defined.

Lemma length_flat_map_In {X Y} (f : X -> list Y) (m : nat) (l : list X) :
  (forall a, In a l -> length (f a) = m) -> length (flat_map f l) = length l * m.
Proof.
  intros Hf. induction l as [|a l IH]; simpl; [reflexivity|].
  rewrite length_app, Hf by (left; reflexivity).
  rewrite IH; [reflexivity|]. intros b Hb. apply Hf. right. exact Hb.
Qed.

Lemma length_crop_unit {X} (D : list X) (c h w : nat) :
  length D = c * (h * w) ->
  length
    (flat_map
       (fun i0 =>
          flat_map
            (fun i1 =>
               flat_map
                 (fun i2 => firstn 1 (skipn (((i0 * h + i1) * w + i2) * 1) D))
                 (seq 0 w))
            (seq 0 h))
       (seq 0 c))
  = c * (h * w).
Proof.
  intros HD.
  rewrite length_flat_map_In with (m := h * w); [now rewrite length_seq|].
  intros i0 H0. apply in_seq in H0.
  rewrite length_flat_map_In with (m := w); [now rewrite length_seq|].
  intros i1 H1. apply in_seq in H1.
  rewrite length_flat_map_In with (m := 1); [rewrite length_seq; lia|].
  intros i2 H2. apply in_seq in H2.
  rewrite length_firstn, length_skipn, HD.
  assert (Ha : i0 * h + i1 + 1 <= c * h) by nia.
  assert (Hb : (i0 * h + i1 + 1) * w <= c * h * w)
    by (apply Nat.mul_le_mono_r; exact Ha).
  lia.
Qed.

Lemma forward_even_width_image (h w c : nat) (rng : nat -> R) :
  0 < h -> 0 < w -> w mod 2 = 0 ->
  exists self d,
    FFTImage.init [h; w] c rng = inr self
    /\ FFTImage.forward self = inr (Tensor CHW [c; h; w] d)
    /\ length d = c * (h * w).
Proof.
  intros Hh Hw He.
  destruct (init_ok c rng Hh Hw) as (freqs & _ & Hn & Hs & _ & Hi).
  pose proof (Nat.div_mod_eq w 2) as Hd.
  assert (Ew : 2 * (w / 2 + 1 - 1) = w) by lia.
  eexists. eexists. split; [exact Hi|].
  unfold FFTImage.forward. read_attributes.
  rewrite Hs, Hn, grid_columns_even by exact He.
  cbn [app]. rewrite broadcast_coeffs_scale.
  cbn [bind ret length repeat pad_names Nat.sub app unify_names unify_name].
  unfold irfft.
  cbn [is_unnamed names forallb name_eqb andb negb shape rev app Nat.eqb].
  cbn [unnamed length repeat].
  assert (Ewo : (2 * (w / 2 + 1 - 1) =? 0) = false)
    by (apply Nat.eqb_neq; lia).
  rewrite Ewo.
  unfold crop12. cbn [unnamed shape bind ret names data numel fold_right length repeat].
  unfold refine_names.
  cbn [dim shape length Nat.eqb names refines_all refines andb].
  cbn [names shape map data].

  rewrite Ew, !Nat.min_id.
  split; [reflexivity|].
  apply length_crop_unit.
  rewrite length_flat_map_const with (m := h * w).
  - rewrite length_seq. simpl. lia.
  - intros b. rewrite length_flat_map_const with (m := w).
    + now rewrite length_seq.
    + intros y. now rewrite length_map, length_seq.
Qed.

(** X13: for a positive height and a width of at least 2, whether
    [forward] returns is decided by the parity of the width.  For an even
    width it returns a well-formed tensor named (C, H, W) of shape
    (channels, h, w); for an odd width it raises the size mismatch of the
    product of the coefficients by the scale. *)
Theorem fft_forward_by_parity (h w c : nat) (rng : nat -> R) :
  0 < h -> 2 <= w ->
  exists self,
    FFTImage.init [h; w] c rng = inr self
    /\ (w mod 2 = 0 ->
        exists out,
          FFTImage.forward self = inr out
          /\ names out = CHW /\ shape out = [c; h; w]
          /\ length (data out) = c * (h * w))
    /\ (w mod 2 = 1 ->
        FFTImage.forward self = inl RuntimeError_size_mismatch).
Proof.
  intros Hh Hw.
  destruct (@init_ok h w c rng) as (freqs & _ & _ & _ & _ & Hi); [lia|lia|].
  eexists. split; [exact Hi|]. split.
  - intros He.
    destruct (@forward_even_width_image h w c rng) as (self & d & Hi' & Hf & Hl);
      [lia|lia|exact He|].
    rewrite Hi in Hi'. injection Hi' as <-.
    eexists. split; [exact Hf|]. repeat split. exact Hl.
  - intros Ho. pose proof (Nat.div_mod_eq w 2) as Hd.
    destruct (@forward_odd_width h w c rng) as (self & Hi' & Hf);
      [lia|exact Ho|lia|].
    rewrite Hi in Hi'. injection Hi' as <-. exact Hf.
Qed.

Lemma fft_forward_by_parity_witness :
  exists self,
    FFTImage.init [2; 4] 3 (fun _ => 0%R) = inr self
    /\ exists out, FFTImage.forward self = inr out /\ shape out = [3; 2; 4].
Proof.
  destruct (@fft_forward_by_parity 2 4 3 (fun _ => 0%R)) as (self & Hi & He & _);
    [lia|lia|].
  exists self. split; [exact Hi|].
  destruct (He eq_refl) as (out & Hf & _ & Hs & _).
  exists out. split; assumption.
Defined.

Lemma set_image_never_returns_witness :
  exists self,
    FFTImage.init [2; 2] 1 (fun _ => 0%R) = inr self
    /\ ~ (exists self',
             FFTImage.set_image self (unnamed [1; 2; 2] [0; 0; 0; 0]%R)
             = inr self').
Proof.
  destruct (@init_ok 2 2 1 (fun _ => 0%R)) as (freqs & _ & _ & _ & _ & Hi);
    [lia|lia|].
  eexists. split; [exact Hi|].
  intros (self' & Hs).
  exact (@set_image_never_returns [2; 2] 1 (fun _ => 0%R) _
           (unnamed [1; 2; 2] [0; 0; 0; 0]%R) Hi self' Hs).
Defined.

(** ** PixelImage: construction *)

(** X16: with a seed image the constructor looks at the seed alone: it
    raises [IndexError] on a seed without dimensions, fails its assertion
    when the first dimension is not 3, four channels included, and otherwise
    succeeds whatever [size] and [channels] are, [forward] returning the seed
    itself. *)
Theorem pixel_init_with_seed (size : option (list nat)) (channels : option nat)
        (seed : tensor R) (rng : nat -> R) :
  (shape seed = [] ->
   PixelImage.init size channels (Some seed) rng = inl IndexError)
  /\ (forall c rest, shape seed = c :: rest -> c <> 3 ->
        PixelImage.init size channels (Some seed) rng = inl AssertionError)
  /\ (forall rest, shape seed = 3 :: rest ->
        exists self,
          PixelImage.init size channels (Some seed) rng = inr self
          /\ PixelImage.forward self = inr seed).
Proof.
  unfold PixelImage.init, PixelImage.item. split; [|split].
  - intros ->. reflexivity.
  - intros c rest -> Hc. cbn [nth_error bind ret].
    destruct (c =? 3) eqn:E; [apply Nat.eqb_eq in E; contradiction|].
    reflexivity.
  - intros rest ->. eexists. split; reflexivity.
Qed.

Lemma pixel_init_with_seed_witness :
  PixelImage.init None None (Some (unnamed [4; 2; 2] [])) (fun _ => 0%R)
  = inl AssertionError
  /\ exists self,
       PixelImage.init None None (Some (Tensor CHW [3; 1; 1] [1; 2; 3]%R))
         (fun _ => 0%R) = inr self
       /\ PixelImage.forward self = inr (Tensor CHW [3; 1; 1] [1; 2; 3]%R).
Proof.
  split.
  - apply (proj1 (proj2 (pixel_init_with_seed None None
                           (unnamed [4; 2; 2] []) (fun _ => 0%R)))
             4 [2; 2]); [reflexivity|lia].
  - apply (proj2 (proj2 (pixel_init_with_seed None None
                           (Tensor CHW [3; 1; 1] [1; 2; 3]%R) (fun _ => 0%R)))
             [1; 1]). reflexivity.
Defined.

(** X17: without a seed, [size] is read at its first two entries only.  A
    size of fewer than two entries raises [IndexError]; otherwise entries
    beyond the second are ignored, and [forward] returns an unnamed tensor
    of shape (channels, size[0], size[1]) whose entries are the samples
    divided by 10, plus 0.5. *)
Theorem pixel_init_size_entries (size : list nat) (c : nat) (rng : nat -> R) :
  (length size < 2 ->
   PixelImage.init (Some size) (Some c) None rng = inl IndexError)
  /\ (forall h w rest, size = h :: w :: rest ->
        exists self image,
          PixelImage.init (Some size) (Some c) None rng = inr self
          /\ PixelImage.forward self = inr image
          /\ names image = [None; None; None]
          /\ shape image = [c; h; w]
          /\ data image = map (fun i => (rng i / 10 + 5 / 10)%R)
                            (seq 0 (numel [c; h; w]))).
Proof.
  unfold PixelImage.init, PixelImage.item. split.
  - intros Hl. destruct size as [|h [|w rest]]; [reflexivity|reflexivity|].
    simpl in Hl. lia.
  - intros h w rest ->. eexists. eexists. split; [reflexivity|].
    split; [reflexivity|].
    cbn [tmap randn unnamed names shape data length repeat].
    split; [reflexivity|]. split; [reflexivity|]. now rewrite map_map.
Qed.

Lemma pixel_init_size_entries_witness :
  PixelImage.init (Some [5]) (Some 3) None (fun _ => 0%R) = inl IndexError
  /\ exists self image,
       PixelImage.init (Some [2; 2; 7]) (Some 3) None (fun _ => 0%R) = inr self
       /\ PixelImage.forward self = inr image
       /\ shape image = [3; 2; 2].
Proof.
  split.
  - apply (proj1 (pixel_init_size_entries [5] 3 (fun _ => 0%R))). simpl. lia.
  - destruct (proj2 (pixel_init_size_entries [2; 2; 7] 3 (fun _ => 0%R))
                2 2 [7] eq_refl) as (self & image & Hi & Hf & _ & Hs & _).
    exists self, image. repeat split; assumption.
Defined.


(** ** LaplacianImage *)

(** X22: the constructor of [LaplacianImage] passes on the error of the
    CUDA device when there is one; and when it succeeds, [forward] raises
    [AttributeError]: the constructor stores its tensors under
    [parameters] and [forward] reads them under [X]. *)
Theorem laplacian_forward_fails (device : result unit) (rng : nat -> R) :
  (forall e, device = inl e -> LaplacianImage.init device rng = inl e)
  /\ (forall self,
         LaplacianImage.init device rng = inr self ->
         LaplacianImage.forward self = inl AttributeError).
Proof.
  split.
  - intros e ->. reflexivity.
  - intros self Hi. unfold LaplacianImage.init in Hi.
    destruct (LaplacianImage.build device rng 0 LaplacianImage.scales)
      as [e|r]; [discriminate|].
    cbn [bind ret] in Hi. injection Hi as <-. reflexivity.
Qed.

Lemma laplacian_forward_fails_witness :
  exists self,
    LaplacianImage.init (inr tt) (fun _ => 0%R) = inr self
    /\ LaplacianImage.forward self = inl AttributeError.
Proof.
  eexists. split; [reflexivity|].
  apply (proj2 (laplacian_forward_fails (inr tt) (fun _ => 0%R))).
  reflexivity.
Defined.

(** ** NaturalImage *)

Lemma natural_init_fft (h w c : nat) (rng : nat -> R) :
  0 < h -> 0 < w ->
  exists p d,
    FFTImage.init [h; w] c rng = inr p
    /\ rgb_basis d ToRGB.klt_transform
    /\ NaturalImage.init [h; w] c NaturalImage.FFTImage_class rng
       = inr (NaturalImage.Make (NaturalImage.AsFFT p) d).
Proof.
  intros Hh Hw.
  destruct (init_ok c rng Hh Hw) as (freqs & _ & _ & _ & _ & Hi).
  destruct klt_basis as (d & Hd & Hb).
  eexists. exists d. split; [exact Hi|]. split; [exact Hb|].
  unfold NaturalImage.init. rewrite Hi. cbn [bind ret]. rewrite Hd. reflexivity.
Qed.

Lemma sigmoid_all (l : list R) :
  Forall (fun v => (0 < v < 1)%R) (map sigmoid l).
Proof. apply Forall_map, Forall_forall. intros v _. apply sigmoid_range. Qed.

(** X18: a composite image on a frequency parameterization of positive
    height and even width returns, for three or four channels, an unnamed
    well-formed tensor of shape (channels, h, w) whose entries all lie
    strictly between 0 and 1; for any other channel count its [forward]
    raises the size mismatch of the colour transform. *)
Theorem natural_forward_fft (h w c : nat) (rng : nat -> R) :
  0 < h -> 2 <= w -> w mod 2 = 0 ->
  exists self,
    NaturalImage.init [h; w] c NaturalImage.FFTImage_class rng = inr self
    /\ (c = 3 \/ c = 4 ->
        exists out,
          NaturalImage.forward self = inr out
          /\ names out = [None; None; None]
          /\ shape out = [c; h; w]
          /\ length (data out) = c * (h * w)
          /\ Forall (fun v => (0 < v < 1)%R) (data out))
    /\ (c <> 3 -> c <> 4 ->
        NaturalImage.forward self = inl RuntimeError_size_mismatch).
Proof.
  intros Hh Hw He.
  destruct (@natural_init_fft h w c rng) as (p & d & Hp & Hb & Hi); [lia|lia|].
  destruct (@forward_even_width_image h w c rng) as (p' & img & Hp' & Hf & Hl);
    [lia|lia|exact He|].
  rewrite Hp in Hp'. injection Hp' as <-.
  eexists. split; [exact Hi|].
  unfold NaturalImage.forward.
  cbn [NaturalImage.param NaturalImage.decorrelate]. rewrite Hf. cbn [bind].
  assert (En : h * (w * 1) = h * w) by lia.
  split.
  - intros [-> | ->].
    + rewrite forward_rgb with (T := ToRGB.klt_transform) by exact Hb.
      cbn [bind ret]. eexists. split; [reflexivity|].
      cbn [rename_none tmap names shape data map CHW].
      split; [reflexivity|]. split; [reflexivity|].
      split; [|apply sigmoid_all].
      rewrite length_map, length_matmul_data. lia.
    + rewrite forward_rgba with (T := ToRGB.klt_transform) by exact Hb.
      cbn [bind ret]. eexists. split; [reflexivity|].
      cbn [rename_none tmap names shape data map CHW].
      split; [reflexivity|]. split; [reflexivity|].
      split; [|apply sigmoid_all].
      rewrite length_map, length_app, length_matmul_data, length_firstn,
        length_skipn.
      lia.
  - intros H3 H4.
    rewrite forward_mismatch with (T := ToRGB.klt_transform) by assumption.
    reflexivity.
Qed.

Lemma natural_forward_fft_witness :
  exists self,
    NaturalImage.init [2; 2] 3 NaturalImage.FFTImage_class (fun _ => 0%R)
    = inr self
    /\ exists out,
         NaturalImage.forward self = inr out /\ shape out = [3; 2; 2].
Proof.
  destruct (@natural_forward_fft 2 2 3 (fun _ => 0%R)) as (self & Hi & Hf & _);
    [lia|lia|reflexivity|].
  exists self. split; [exact Hi|].
  destruct (Hf (or_introl eq_refl)) as (out & Ho & _ & Hs & _).
  exists out. split; assumption.
Defined.

(** X19: a composite image on a pixel parameterization is constructed but
    cannot be read: the pixel tensor carries no dimension names, and the
    colour transform raises the error of its name lookup, whatever the size
    and the channel count. *)
Theorem natural_forward_pixel (h w c : nat) (rng : nat -> R) :
  exists self,
    NaturalImage.init [h; w] c NaturalImage.PixelImage_class rng = inr self
    /\ NaturalImage.forward self = inl RuntimeError_names.
Proof.
  destruct klt_basis as (d & Hd & Hb).
  eexists. split.
  - unfold NaturalImage.init. cbn [PixelImage.init PixelImage.item nth_error bind ret NN.setattr NN.empty].
    rewrite Hd. reflexivity.
  - unfold NaturalImage.forward.
    cbn [NaturalImage.param NaturalImage.decorrelate PixelImage.forward
         PixelImage.nn NN.getattr NN.attrs NN._parameters NN.remove NN.insert
         NN.empty NN.lookup String.eqb Ascii.eqb Bool.eqb bind ret].
    rewrite forward_names_error; [reflexivity|reflexivity|left; reflexivity].
Qed.

(** X20: on a composite image constructed on a frequency
    parameterization, [set_image] never returns, whatever the image. *)
Theorem natural_set_image_fft (size : list nat) (c : nat) (rng : nat -> R)
        (self : NaturalImage.t) (image : tensor R) :
  NaturalImage.init size c NaturalImage.FFTImage_class rng = inr self ->
  forall self', NaturalImage.set_image self image <> inr self'.
Proof.
  intros Hi self'. unfold NaturalImage.init in Hi.
  destruct (FFTImage.init size c rng) as [e|p] eqn:Hp; [discriminate|].
  cbn [bind ret] in Hi.
  destruct (ToRGB.init "klt") as [e|d]; [discriminate|].
  cbn [bind ret] in Hi. injection Hi as <-.
  unfold NaturalImage.set_image.
  destruct (logit image NaturalImage.set_image_epsilon) as [e|lg];
    [discriminate|]. cbn [bind].
  cbn [NaturalImage.param NaturalImage.decorrelate].
  destruct (ToRGB.forward d (tmap to_real lg) true) as [e|co];
    [discriminate|]. cbn [bind].
  destruct (FFTImage.set_image p co) as [e|p'] eqn:Hs; [discriminate|].
  exfalso.
  exact (set_image_refused p co (init_registers_coeffs _ _ _ Hp) Hs).
Qed.

Lemma natural_set_image_fft_witness :
  exists self,
    NaturalImage.init [2; 2] 3 NaturalImage.FFTImage_class (fun _ => 0%R)
    = inr self
    /\ ~ (exists self',
             NaturalImage.set_image self
               (Tensor CHW [3; 2; 2] (repeat (1 / 2)%R 12)) = inr self').
Proof.
  destruct (@natural_init_fft 2 2 3 (fun _ => 0%R)) as (p & d & _ & _ & Hi);
    [lia|lia|].
  eexists. split; [exact Hi|].
  intros (self' & Hs).
  exact (@natural_set_image_fft [2; 2] 3 (fun _ => 0%R) _
           (Tensor CHW [3; 2; 2] (repeat (1 / 2)%R 12)) Hi self' Hs).
Defined.

Lemma unnamed_index_of (n : string) (ns : list (option string)) :
  forallb (fun m => name_eqb m None) ns = true -> index_of n ns = None.
Proof.
  induction ns as [|m ns IH]; intros Hu; [reflexivity|].
  simpl in Hu. apply andb_prop in Hu. destruct Hu as [Hm Hns].
  destruct m as [s|]; [discriminate|].
  simpl. now rewrite IH.
Qed.

(** X21: [set_image] takes its image through [logit] and then through the
    colour transform, which reads the axes by name.  On an unnamed image it
    therefore never reaches the parameterization: it raises the error of
    [p.min()] when the image has no element, the assertion of the colour
    transform when the image has not three dimensions, and the error of the
    name lookup otherwise. *)
Theorem natural_set_image_unnamed (self : NaturalImage.t) (image : tensor R) :
  is_unnamed image = true ->
  (data image = [] ->
   NaturalImage.set_image self image = inl RuntimeError_empty)
  /\ (data image <> [] -> dim image <> 3 ->
      NaturalImage.set_image self image = inl AssertionError)
  /\ (data image <> [] -> dim image = 3 ->
      NaturalImage.set_image self image = inl RuntimeError_names).
Proof.
  intros Hu.
  assert (He : (0 < NaturalImage.set_image_epsilon <= 1 / 2)%R)
    by (unfold NaturalImage.set_image_epsilon; lra).
  unfold NaturalImage.set_image. split; [|split].
  - intros Hd. unfold logit, tensor_min, tmap. cbn [data]. rewrite Hd.
    reflexivity.
  - intros Hd Hdim. rewrite logit_nonempty by assumption. cbn [bind].
    unfold ToRGB.forward.
    change (dim (tmap to_real (tmap _ image))) with (dim image).
    destruct (dim image =? 3) eqn:E; [apply Nat.eqb_eq in E; contradiction|].
    reflexivity.
  - intros Hd Hdim. rewrite logit_nonempty by assumption. cbn [bind].
    rewrite forward_names_error; [reflexivity|exact Hdim|].
    left. cbn [tmap names]. now apply unnamed_index_of.
Qed.

Lemma natural_set_image_unnamed_witness :
  NaturalImage.set_image
    (NaturalImage.Make (NaturalImage.AsPixel (PixelImage.Make NN.empty))
       NN.empty)
    (unnamed [3; 1; 1] [1 / 2; 1 / 2; 1 / 2]%R)
  = inl RuntimeError_names.
Proof.
  apply natural_set_image_unnamed; [reflexivity|discriminate|reflexivity].
Defined.

(** ** logit keeps the order *)

Section LogitOrder.
Local Open Scope R_scope.

Lemma clamp_monotone (lo hi v1 v2 : R) :
  v1 <= v2 -> clamp lo hi v1 <= clamp lo hi v2.
Proof.
  intros Hv. unfold clamp.
  apply Rle_min_compat_r. apply Rle_max_compat_r. exact Hv.
Qed.

(** X23: for an [epsilon] between 2^-24 and 1/2, the epsilons that
    [float32] tells from 0 next to 1, [logit] is non-decreasing: of two
    values, the larger has, in exact arithmetic, the larger logit, both
    being finite. *)
Theorem logit_monotone (epsilon v1 v2 : R) :
  float32_resolution <= epsilon <= 1 / 2 -> v1 <= v2 ->
  exists r1 r2,
    logit (scalar_tensor v1) epsilon = inr (scalar_tensor (Fin r1))
    /\ logit (scalar_tensor v2) epsilon = inr (scalar_tensor (Fin r2))
    /\ r1 <= r2.
Proof.
  intros Hf Hv.
  assert (He : 0 < epsilon <= 1 / 2) by (unfold float32_resolution in Hf; lra).
  assert (He' : epsilon <= 1 - epsilon) by lra.
  pose proof (clamp_range v1 He') as H1.
  pose proof (clamp_range v2 He') as H2.
  pose proof (clamp_monotone epsilon (1 - epsilon) Hv) as Hc.
  eexists. eexists.
  split; [apply logit_scalar; [reflexivity|lra]|].
  split; [apply logit_scalar; [reflexivity|lra]|].
  apply ln_monotone; [apply Rdiv_lt_0_compat; lra|].
  apply odds_monotone; lra.
Qed.

Lemma logit_monotone_witness :
  exists r1 r2,
    logit (scalar_tensor (1 / 4)) default_epsilon
    = inr (scalar_tensor (Fin r1))
    /\ logit (scalar_tensor (3 / 4)) default_epsilon
       = inr (scalar_tensor (Fin r2))
    /\ r1 <= r2.
Proof.
  apply logit_monotone;
    [unfold float32_resolution, default_epsilon; lra|lra].
Defined.

End LogitOrder.
